(** * axios-api-adapter: request de-duplication queue and request orchestration

  A shallow embedding of [src/Adapter/RequestQueue.ts] and of the
  [fetchData] pipeline of [src/Adapter/Adapter.ts], with the properties
  the specification states about them.

  Conventions of the embedding:
  - module-level mutable objects ([requestQueue], [defaultRequestHeaders],
    [pendingRequestCancelTokenSources]) are fields of an explicit state;
  - JavaScript objects used as dictionaries are [gmap string _];
  - promises are sequentialised: an asynchronous pipeline is a function
    that consumes the list of results the transport delivers, one per
    attempt, and stops as in-flight when that list runs out;
  - calls to collaborators that have no result the adapter reads
    (listeners, cache writes, cancellation) are recorded in a log. *)

From Stdlib Require Import Ascii String.
From stdpp Require Import gmap strings list pretty.

Set Warnings "-register-all,-clear-no-such-hyp".

(** ** JavaScript values *)

(** A property of an options object: absent, present with the value
    [undefined], or present with a value. Reading the property gives
    [undefined] in the first two cases; a spread ([{ ...a, ...b }]) and
    the hash tell them apart. *)
Inductive optional (A : Type) : Type :=
| Absent
| Undef
| Given (a : A).
Arguments Absent {A}.
Arguments Undef {A}.
Arguments Given {A} a.

Definition read {A} (p : optional A) : option A :=
  match p with
  | Given a => Some a
  | Absent | Undef => None
  end.

Module JS.

(** The part of the value universe the adapter inspects: the body of an
    error response is read through [data.message] and [data.errors]. A
    number is the Number nearest to the integer given; a string holds
    the UTF-8 encoding of its text; an object is a plain one, with
    [Object.prototype] behind its own properties. *)
Inductive value : Type :=
| Undefined
| Null
| Bool (b : bool)
| Num (z : Z)
| Str (s : string)
| Arr (items : list value)
| Obj (fields : list (string * value)).

(** ToBoolean. *)
Definition truthy (v : value) : bool :=
  match v with
  | Undefined | Null => false
  | Bool b => b
  | Num z => negb (z =? 0)%Z
  | Str s => negb (String.eqb s EmptyString)
  | Arr _ | Obj _ => true
  end.

Definition nullish (v : value) : bool :=
  match v with Undefined | Null => true | _ => false end.

Fixpoint assoc (k : string) (fields : list (string * value)) : value :=
  match fields with
  | [] => Undefined
  | (k', v) :: rest => if String.eqb k k' then v else assoc k rest
  end.

Definition has_own (k : string) (fields : list (string * value)) : bool :=
  bool_decide (k ∈ fields.*1).

(** [v.k] for a named (non-index, non-builtin) key [k]; [None] is the
    TypeError of reading a property of [undefined] or [null]. *)
Definition get (v : value) (k : string) : option value :=
  match v with
  | Undefined | Null => None
  | Obj fields => Some (assoc k fields)
  | _ => Some Undefined
  end.

(** [Array.prototype.join], on the strings of the elements. *)
Fixpoint join (sep : string) (l : list string) : string :=
  match l with
  | [] => EmptyString
  | [s] => s
  | s :: rest => s +:+ sep +:+ join sep rest
  end.

(** [typeof x === 'string'] as a filter. *)
Definition is_string (v : value) : bool :=
  match v with Str _ => true | _ => false end.

(** Exceptions the adapter's own code can raise. *)
Inductive exn : Type :=
| ReferenceError (name : string)
| TypeError.

(** *** Number::toString on integers *)

(** The Number nearest to a positive integer: 53 bits, round to
    nearest, ties to even; [None] is [Infinity]. *)
Definition nearest_double (m : Z) : option Z :=
  let e := Z.log2 m in
  if (e <=? 52)%Z then Some m
  else
    let ulp := (2 ^ (e - 52))%Z in
    let q := (m / ulp)%Z in
    let r := (m `mod` ulp)%Z in
    let q' :=
      if (ulp <? 2 * r)%Z || ((2 * r =? ulp)%Z && Z.odd q) then (q + 1)%Z else q in
    let x := (q' * ulp)%Z in
    if (2 ^ 1024 <=? x)%Z then None else Some x.

Definition decimal_digits (m : Z) : nat := String.length (pretty m).

Definition rounds_to (x c : Z) : bool := bool_decide (nearest_double c = Some x).

(** The decimal with the fewest digits that denotes the Number [x], and
    of those the one closest to [x] (the even one on a tie): one of the
    two multiples of [10 ^ j] next to [x], for the largest [j] that has
    one. *)
Fixpoint shortest (j : nat) (x : Z) : Z :=
  match j with
  | 0 => x
  | S j' =>
      let p := (10 ^ Z.of_nat j)%Z in
      let lo := (x / p * p)%Z in
      let hi := (lo + p)%Z in
      match rounds_to x lo, rounds_to x hi with
      | true, true =>
          if (x - lo <? hi - x)%Z then lo
          else if (hi - x <? x - lo)%Z then hi
          else if Z.even (x / p) then lo else hi
      | true, false => lo
      | false, true => hi
      | false, false => shortest j' x
      end
  end.

Fixpoint strip_zeros (fuel : nat) (v : Z) : Z :=
  match fuel with
  | 0 => v
  | S fuel' => if (v `mod` 10 =? 0)%Z then strip_zeros fuel' (v / 10)%Z else v
  end.

(** [d.ddde+n], for a decimal of more than 21 digits. *)
Definition exponent_form (v : Z) : string :=
  let n := decimal_digits v in
  match pretty (strip_zeros n v) with
  | String d EmptyString => String d EmptyString +:+ "e+" +:+ pretty (n - 1)
  | String d ds => String d ("." +:+ ds) +:+ "e+" +:+ pretty (n - 1)
  | EmptyString => EmptyString
  end.

Definition print_positive (m : Z) : string :=
  if (m <=? 2 ^ 53)%Z then pretty m
  else
    match nearest_double m with
    | None => "Infinity"
    | Some x =>
        let v := shortest (decimal_digits x - 1) x in
        if decimal_digits v <=? 21 then pretty v else exponent_form v
    end.

(** [String(n)] for the Number nearest to the integer [z]. *)
Definition Number_toString (z : Z) : string :=
  match z with
  | Z0 => "0"
  | Zpos _ => print_positive z
  | Zneg _ => "-" +:+ print_positive (- z)
  end.

(** *** ToString *)

(** ToString. An array prints through [join], where an [undefined] or
    [null] element gives the empty string. A plain object prints
    through [Object.prototype.toString] unless an own property
    [toString] shadows it: the value of such a property is not
    callable, [valueOf] gives no primitive either, and the conversion
    throws a TypeError. *)
Fixpoint to_string (v : value) : exn + string :=
  match v with
  | Undefined => inr "undefined"
  | Null => inr "null"
  | Bool true => inr "true"
  | Bool false => inr "false"
  | Num z => inr (Number_toString z)
  | Str s => inr s
  | Arr items =>
      match
        (fix elements (l : list value) : exn + list string :=
           match l with
           | [] => inr []
           | x :: l' =>
               match (if nullish x then inr EmptyString else to_string x) with
               | inl e => inl e
               | inr s =>
                   match elements l' with
                   | inl e => inl e
                   | inr ss => inr (s :: ss)
                   end
               end
           end) items
      with
      | inl e => inl e
      | inr ss => inr (join "," ss)
      end
  | Obj fields =>
      if has_own "toString" fields then inl TypeError else inr "[object Object]"
  end.

(** The strings [join] makes of the elements of an array. *)
Fixpoint element_strings (l : list value) : exn + list string :=
  match l with
  | [] => inr []
  | x :: l' =>
      match (if nullish x then inr EmptyString else to_string x) with
      | inl e => inl e
      | inr s =>
          match element_strings l' with
          | inl e => inl e
          | inr ss => inr (s :: ss)
          end
      end
  end.

(** [l.join(sep)]. *)
Definition join_values (sep : string) (l : list value) : exn + string :=
  match element_strings l with
  | inl e => inl e
  | inr ss => inr (join sep ss)
  end.

(** The values on which ToString throws: an object with an own
    [toString] property, or an array that holds such a value, at any
    depth. *)
Fixpoint unprintable (v : value) : bool :=
  match v with
  | Arr items => existsb unprintable items
  | Obj fields => has_own "toString" fields
  | _ => false
  end.

End JS.

(** ** RequestQueue.ts *)

Module RequestQueue.

(** The [data] field of a request configuration. *)
Inductive Body : Type :=
| NoData
| PlainData (v : JS.value)
| FormData (parts : list (string * string)).

Definition instanceof_FormData (b : Body) : bool :=
  match b with FormData _ => true | _ => false end.

(** A caller's promise: its [resolve] and [reject] functions. *)
Definition Waiter := nat.

(** The request configuration that reaches the queue: the [...options]
    left once [fetchData] has destructured its own fields out, and
    [url]. The [getRequestController] hook is not destructured out, so
    it is one of them; a function is named by a number. *)
Record AxiosRequestConfig : Type := {
  url : string;
  method : optional string;
  data : Body;
  getRequestController : optional nat;
  rest : list (string * JS.value)
}.

(** [QueuedRequestOptions]: the configuration with [resolve] and
    [reject]. *)
Record QueuedRequestOptions : Type := {
  config : AxiosRequestConfig;
  waiter : Waiter
}.

Definition with_data (d : Body) (c : AxiosRequestConfig) : AxiosRequestConfig :=
  {| url := url c; method := method c; data := d;
     getRequestController := getRequestController c; rest := rest c |}.

(** What a waiter observes. *)
Inductive Settlement (P E : Type) : Type :=
| Resolved (w : Waiter) (payload : P)
| Rejected (w : Waiter) (err : E).
Arguments Resolved {P E} w payload.
Arguments Rejected {P E} w err.

Section Queue.
(** [hash-it], applied to an object with the fields of a configuration
    and, when given, the two resolvers of a waiter; whether the global
    [FormData] is defined; the types of payloads and errors ([any] in
    the source). *)
Variable hashIt : AxiosRequestConfig → option Waiter → Z.
Variable FormData_defined : bool.
Context {P E : Type}.

(** Lines 51-57; [now] is the reading of [Date.now()]. *)
Definition hashableRequestOptions (now : Z) (requestOptions : QueuedRequestOptions)
  : AxiosRequestConfig :=
  if FormData_defined && instanceof_FormData (data (config requestOptions))
  then with_data (PlainData (JS.Num now)) (config requestOptions)
  else config requestOptions.

(** Line 58. *)
Definition requestId (now : Z) (requestOptions : QueuedRequestOptions) : string :=
  JS.Number_toString (hashIt (hashableRequestOptions now requestOptions)
                             (Some (waiter requestOptions))).

(** [queueRequest]: the new queue, and [Some id] when [callback] is
    invoked, with resolvers that settle the group [id]. *)
Definition queueRequest (now : Z) (requestOptions : QueuedRequestOptions)
    (requestQueue : gmap string (list QueuedRequestOptions))
  : gmap string (list QueuedRequestOptions) * option string :=
  let id := requestId now requestOptions in
  match requestQueue !! id with
  | Some group => (<[id := group ++ [requestOptions]]> requestQueue, None)
  | None => (<[id := [requestOptions]]> requestQueue, Some id)
  end.

Definition dequeueRequest (key : string)
    (requestQueue : gmap string (list QueuedRequestOptions)) :=
  delete key requestQueue.

(** [resolveRequest] and [rejectRequest]: the queue afterwards and the
    settlements delivered, in order. *)
Definition resolveRequest (requestKey : string) (payload : P)
    (requestQueue : gmap string (list QueuedRequestOptions))
  : gmap string (list QueuedRequestOptions) * list (Settlement P E) :=
  match requestQueue !! requestKey with
  | Some group =>
      if bool_decide (0 < length group)
      then (dequeueRequest requestKey requestQueue,
            map (fun r => Resolved (waiter r) payload) group)
      else (requestQueue, [])
  | None => (requestQueue, [])
  end.

Definition rejectRequest (requestKey : string) (err : E)
    (requestQueue : gmap string (list QueuedRequestOptions))
  : gmap string (list QueuedRequestOptions) * list (Settlement P E) :=
  match requestQueue !! requestKey with
  | Some group =>
      if bool_decide (0 < length group)
      then (dequeueRequest requestKey requestQueue,
            map (fun r => Rejected (waiter r) err) group)
      else (requestQueue, [])
  | None => (requestQueue, [])
  end.

(** A burst of calls made before any of them settles: each call is a
    clock reading and its options. The result is the queue and the keys
    [callback] was invoked with, in order. *)
Fixpoint queueRequests (calls : list (Z * QueuedRequestOptions))
    (requestQueue : gmap string (list QueuedRequestOptions))
  : gmap string (list QueuedRequestOptions) * list string :=
  match calls with
  | [] => (requestQueue, [])
  | (now, r) :: calls' =>
      let '(q1, invoked) := queueRequest now r requestQueue in
      let '(q2, more) := queueRequests calls' q1 in
      (q2, match invoked with Some id => id :: more | None => more end)
  end.

End Queue.

End RequestQueue.

(** ** Adapter.ts *)

Module Adapter.

Definition newline : string := String (Ascii.ascii_of_nat 10) EmptyString.
Definition dquote : string := String (Ascii.ascii_of_nat 34) EmptyString.

Definition CANCELLED_API_REQUEST_MESSAGE : string := "Request Cancelled".

Definition EXPIRED_SESSION_ERROR_MESSAGES : list string :=
  [ "Session timed out";
    "Session expired";
    "User session timed out";
    "User session expired";
    "Invalid token" ].

Definition FAILED_REQUEST_RETRY_STATUS_BLACKLIST : list Z := [400; 401; 500]%Z.
Definition MAX_REQUEST_RETRY_COUNT : nat := 2.

(** [Array.prototype.includes] on strings and on numbers. *)
Definition includes `{EqDecision A} (l : list A) (x : A) : bool :=
  bool_decide (x ∈ l).

(** *** Responses, errors, settlement values *)

Record AxiosResponse : Type := {
  res_data : JS.value;
  res_status : Z;
  res_headers : gmap string string
}.

(** An [AxiosError]: [response] is absent on a connectivity failure or a
    cancellation. *)
Record AxiosError : Type := {
  err_response : option AxiosResponse;
  err_message : string
}.

(** What [resolve] is called with: the object literal [{ data }] of
    line 353, or the response of line 540. *)
Inductive Payload : Type :=
| CachedData (data : JS.value)
| Response (response : AxiosResponse).

(** The properties a caller can read off a payload; of a response,
    those the record above carries. *)
Definition payload_data (p : Payload) : JS.value :=
  match p with CachedData d => d | Response r => res_data r end.
Definition payload_status (p : Payload) : option Z :=
  match p with CachedData _ => None | Response r => Some (res_status r) end.
Definition payload_headers (p : Payload) : option (gmap string string) :=
  match p with CachedData _ => None | Response r => Some (res_headers r) end.
Definition own_keys (p : Payload) : list string :=
  match p with
  | CachedData _ => ["data"]
  | Response _ => ["data"; "status"; "headers"]
  end.

(** What [reject] is called with: [Error(errorMessage)] of line 492, or
    the error itself of line 500. *)
Inductive Rejection : Type :=
| ErrorObject (message : string)
| RawError (err : AxiosError).

Inductive TransportResult : Type :=
| Success (response : AxiosResponse)
| Failure (err : AxiosError).

(** *** Options, configuration, controller *)

Definition CancelTokenSource := nat.

(** An options object, by its own properties. A hook that only has an
    effect is named by a number, logged when the hook is called.
    [getStaleWhileRevalidate] answers [Some e] when it throws [e].
    [rest] holds the properties of other names. *)
Record RequestOptions : Type := {
  own_headers : optional (gmap string string);
  own_label : optional string;
  own_processResponse : optional (AxiosResponse → AxiosResponse);
  own_cacheId : optional string;
  own_onServerSuccess : optional nat;
  own_getStaleWhileRevalidate : optional (JS.value → option JS.value);
  own_queryParams : optional JS.value;
  own_getRequestController : optional nat;
  own_method : optional string;
  data : RequestQueue.Body;
  rest : list (string * JS.value)
}.

(** What reading a property of an options object gives; [None] is
    [undefined]. *)
Definition headers (o : RequestOptions) := read (own_headers o).
Definition label (o : RequestOptions) := read (own_label o).
Definition processResponse (o : RequestOptions) := read (own_processResponse o).
Definition cacheId (o : RequestOptions) := read (own_cacheId o).
Definition onServerSuccess (o : RequestOptions) := read (own_onServerSuccess o).
Definition getStaleWhileRevalidate (o : RequestOptions) :=
  read (own_getStaleWhileRevalidate o).
Definition queryParams (o : RequestOptions) := read (own_queryParams o).
Definition getRequestController (o : RequestOptions) :=
  read (own_getRequestController o).
Definition method (o : RequestOptions) := read (own_method o).
Arguments headers : simpl never.
Arguments label : simpl never.
Arguments processResponse : simpl never.
Arguments cacheId : simpl never.
Arguments onServerSuccess : simpl never.
Arguments getStaleWhileRevalidate : simpl never.
Arguments queryParams : simpl never.
Arguments getRequestController : simpl never.
Arguments method : simpl never.

Record CacheEntry : Type := {
  isStale : option bool;
  entry_data : JS.value
}.

(** [APIRequestCache]; [cacheData] has no result the adapter reads. *)
Record APIRequestCache : Type := {
  getCachedData : string → string → option CacheEntry
}.

Record IAPIAdapterConfiguration : Type := {
  HOST_URL : string;
  preProcessResponseErrorMessages : bool;
  cache : option APIRequestCache;
  defaultRequestOptions : option RequestOptions
}.

(** The [RequestController] singleton and [eventsQueue.error]. *)
Record RequestController : Type := {
  rotateHeaders :
    option (gmap string string → gmap string string → option (gmap string string));
  controller_processResponse : option (AxiosResponse → AxiosResponse);
  processResponseError : option (AxiosError → AxiosError);
  shouldRetryRequest : option (AxiosError → nat → bool);
  error_listeners : list nat
}.

(** The emitted script's language level: below ES2015 a [const] is
    emitted as [var]. The repository's tsconfig is not among the
    sources. *)
Inductive ScriptTarget : Type := ES5 | ES2015.

(** *** State and log *)

Inductive Event : Type :=
| Transport (url : string) (headers : gmap string string) (token : CancelTokenSource)
| HandedController (hook : nat) (token : CancelTokenSource)
| Cancel (token : CancelTokenSource)
| StaleWhileRevalidate (data : JS.value)
| ConsoleError (e : JS.value)
| ErrorEvent (listener : nat) (err : AxiosError)
| CacheData (cacheId requestId : string) (data : JS.value)
| StorageAdd (key : string) (headers : gmap string string)
| ServerSuccess (hook : nat) (response : AxiosResponse)
| Settle (s : RequestQueue.Settlement Payload Rejection).

Record State : Type := {
  requestQueue : gmap string (list RequestQueue.QueuedRequestOptions);
  pendingRequestCancelTokenSources : list CancelTokenSource;
  defaultRequestHeaders : gmap string string;
  sources_created : nat;
  log : list Event
}.

Definition set_queue (q : gmap string (list RequestQueue.QueuedRequestOptions))
    (st : State) : State :=
  {| requestQueue := q;
     pendingRequestCancelTokenSources := pendingRequestCancelTokenSources st;
     defaultRequestHeaders := defaultRequestHeaders st;
     sources_created := sources_created st;
     log := log st |}.

Definition set_pending (l : list CancelTokenSource) (st : State) : State :=
  {| requestQueue := requestQueue st;
     pendingRequestCancelTokenSources := l;
     defaultRequestHeaders := defaultRequestHeaders st;
     sources_created := sources_created st;
     log := log st |}.

Definition set_headers (h : gmap string string) (st : State) : State :=
  {| requestQueue := requestQueue st;
     pendingRequestCancelTokenSources := pendingRequestCancelTokenSources st;
     defaultRequestHeaders := h;
     sources_created := sources_created st;
     log := log st |}.

Definition emit (es : list Event) (st : State) : State :=
  {| requestQueue := requestQueue st;
     pendingRequestCancelTokenSources := pendingRequestCancelTokenSources st;
     defaultRequestHeaders := defaultRequestHeaders st;
     sources_created := sources_created st;
     log := log st ++ es |}.

(** [axios.CancelToken.source()]: a source no earlier call returned. *)
Definition new_source (st : State) : CancelTokenSource * State :=
  (sources_created st,
   {| requestQueue := requestQueue st;
      pendingRequestCancelTokenSources := pendingRequestCancelTokenSources st;
      defaultRequestHeaders := defaultRequestHeaders st;
      sources_created := S (sources_created st);
      log := log st |}).

(** How an orchestration run stands once the transport results it was
    given are used up: waiting on the transport, [resolve] called,
    [reject] called, or an exception nobody catches ([fetchData()] on
    line 543 is neither awaited nor given a handler), which settles
    nothing. *)
Inductive Outcome : Type :=
| InFlight
| Fulfilled (payload : Payload)
| Failed (err : Rejection)
| Unhandled (e : JS.exn).

(** The number of transport invocations a log records. *)
Definition is_Transport (e : Event) : bool :=
  match e with Transport _ _ _ => true | _ => false end.

Definition transports (l : list Event) : nat :=
  length (List.filter is_Transport l).

(** The cancellations a log records, in order. *)
Definition cancelled (l : list Event) : list CancelTokenSource :=
  omap (fun e => match e with Cancel t => Some t | _ => None end) l.

(** *** Arrays *)

(** [indexOf]; [None] stands for -1. *)
Fixpoint indexOf (l : list CancelTokenSource) (x : CancelTokenSource) : option nat :=
  match l with
  | [] => None
  | y :: l' => if bool_decide (y = x) then Some 0 else S <$> indexOf l' x
  end.

(** [l.splice(i, 1)]: a start of -1 counts from the end, so the last
    element goes. *)
Definition splice1 (i : option nat) (l : list CancelTokenSource) : list CancelTokenSource :=
  match i with
  | Some i => delete i l
  | None => removelast l
  end.

(** The registry holds a source at most once, and only sources that
    have been created. *)
Definition registry_wf (st : State) : Prop :=
  NoDup (pendingRequestCancelTokenSources st)
  ∧ ∀ h, h ∈ pendingRequestCancelTokenSources st → h < sources_created st.

(** *** Error messages (lines 444-489) *)

Definition lower (c : ascii) : ascii :=
  let n := Ascii.nat_of_ascii c in
  if (65 <=? n) && (n <=? 90) then Ascii.ascii_of_nat (n + 32) else c.

(** The characters [\s] matches, in UTF-8: tab, line feed, vertical tab,
    form feed, carriage return, space, U+00A0, U+1680, U+2000 to
    U+200A, U+2028, U+2029, U+202F, U+205F, U+3000 and U+FEFF. *)
Definition white_space : list (list nat) :=
  [ [9]; [10]; [11]; [12]; [13]; [32]; [194; 160]; [225; 154; 128];
    [226; 128; 128]; [226; 128; 129]; [226; 128; 130]; [226; 128; 131];
    [226; 128; 132]; [226; 128; 133]; [226; 128; 134]; [226; 128; 135];
    [226; 128; 136]; [226; 128; 137]; [226; 128; 138];
    [226; 128; 168]; [226; 128; 169]; [226; 128; 175]; [226; 129; 159];
    [227; 128; 128]; [239; 187; 191] ].

(** What follows the bytes [bs] at the head of [s]. *)
Fixpoint after_bytes (bs : list nat) (s : string) : option string :=
  match bs, s with
  | [], _ => Some s
  | b :: bs', String c s' =>
      if Nat.eqb b (Ascii.nat_of_ascii c) then after_bytes bs' s' else None
  | _ :: _, EmptyString => None
  end.

(** What follows one character of the class [\s] at the head of [s]. *)
Definition after_space (s : string) : option string :=
  list_find is_Some ((fun bs => after_bytes bs s) <$> white_space) ≫= snd.

(** What follows [p] at the head of [s], letters compared without
    case; [p] is in lower case. Without the [u] flag no character
    outside ASCII is taken for an ASCII letter. *)
Fixpoint after_prefix (p s : string) : option string :=
  match p, s with
  | EmptyString, _ => Some s
  | String a p', String b s' =>
      if Ascii.eqb a (lower b) then after_prefix p' s' else None
  | String _ _, EmptyString => None
  end.

Definition request_failed_here (s : string) : bool :=
  match after_prefix "request" s ≫= after_space with
  | Some s' => bool_decide (is_Some (after_prefix "failed" s'))
  | None => false
  end.

(** [String(message).match(/request\sfailed/gi)] being non-null. *)
Fixpoint matches_request_failed (s : string) : bool :=
  request_failed_here s ||
  match s with
  | EmptyString => false
  | String _ s' => matches_request_failed s'
  end.

(** [errs.map((err) => err.message)]. *)
Fixpoint messages_of (errs : list JS.value) : JS.exn + list JS.value :=
  match errs with
  | [] => inr []
  | err :: errs' =>
      match JS.get err "message" with
      | None => inl JS.TypeError
      | Some m =>
          match messages_of errs' with
          | inl e => inl e
          | inr ms => inr (m :: ms)
          end
      end
  end.

(** Lines 448-470, for a truthy [response.data]. *)
Definition serverSideMessage (data : JS.value) : JS.exn + string :=
  match JS.get data "message" with
  | None => inl JS.TypeError
  | Some (JS.Str s) => inr s
  | Some (JS.Arr items) =>
      JS.join_values newline (filter (fun m => JS.is_string m = true) items)
  | Some _ =>
      match JS.get data "errors" with
      | Some (JS.Arr (e :: errs)) =>
          match messages_of (e :: errs) with
          | inl x => inl x
          | inr ms => JS.join_values newline ms
          end
      | _ => inr "Something went wrong"
      end
  end.

Definition failed_with_message (label message : string) : string :=
  "Error: '" +:+ label +:+ "' failed with message " +:+ dquote +:+ message +:+ dquote.

(** Lines 439-443: [cancel()] on every element of a copy of the
    registry. *)
Definition cancelPendingRequests (st : State) : State :=
  emit (map Cancel (pendingRequestCancelTokenSources st)) st.

(** Lines 445-489. *)
Definition errorMessage (label : string) (err : AxiosError) (st : State)
  : JS.exn + (string * State) :=
  let without_body :=
    if negb (String.eqb (err_message err) EmptyString)
       && negb (matches_request_failed (err_message err))
    then failed_with_message label (err_message err)
    else "Error: '" +:+ label +:+ "' failed. Something went wrong" in
  match err_response err with
  | Some response =>
      if JS.truthy (res_data response) then
        match serverSideMessage (res_data response) with
        | inl e => inl e
        | inr message =>
            if includes EXPIRED_SESSION_ERROR_MESSAGES message
            then inr (message, cancelPendingRequests st)
            else inr (failed_with_message label message, st)
        end
      else inr (without_body, st)
  | None => inr (without_body, st)
  end.

(** *** Default headers (lines 244-247) *)

Definition defaultRequestHeadersStorageKey (id : option string) : string :=
  match id with
  | Some i => if String.eqb i EmptyString then "defaultRequestHeaders"
              else "defaultRequestHeaders" +:+ i
  | None => "defaultRequestHeaders"
  end.

(** [Object.assign(target, source)]. *)
Definition Object_assign (target : gmap string string) (source : option (gmap string string))
  : gmap string string :=
  match source with
  | Some s => s ∪ target
  | None => target
  end.

Definition patchDefaultRequestHeaders (id : option string)
    (headers : option (gmap string string)) (st : State) : State :=
  let merged := Object_assign (defaultRequestHeaders st) headers in
  emit [StorageAdd (defaultRequestHeadersStorageKey id) merged] (set_headers merged st).

(** *** The request pipeline (lines 282-548) *)

(** [{ ...defaults, ...input }], property by property: what [input]
    has, be it [undefined], and of [defaults] what [input] lacks. *)
Definition spread (defaults : option RequestOptions) (input : RequestOptions)
  : RequestOptions :=
  match defaults with
  | None => input
  | Some d =>
      let pick {A} (f : RequestOptions → optional A) :=
        match f input with Absent => f d | p => p end in
      {| own_headers := pick own_headers;
         own_label := pick own_label;
         own_processResponse := pick own_processResponse;
         own_cacheId := pick own_cacheId;
         own_onServerSuccess := pick own_onServerSuccess;
         own_getStaleWhileRevalidate := pick own_getStaleWhileRevalidate;
         own_queryParams := pick own_queryParams;
         own_getRequestController := pick own_getRequestController;
         own_method := pick own_method;
         data := match data input with RequestQueue.NoData => data d | b => b end;
         rest :=
           rest input
           ++ filter (fun kv => kv.1 ∉ (rest input).*1) (rest d) |}
  end.

(** A variable read while the declaration that initialises it is still
    being evaluated. *)
Inductive Binding (A : Type) : Type :=
| Uninitialised
| Initialised (v : A).
Arguments Uninitialised {A}.
Arguments Initialised {A} v.

(** Reading a [const]: before initialisation the read throws, unless the
    script was lowered to [var], where it gives [undefined] ([None]). *)
Definition read_const {A} (target : ScriptTarget) (name : string)
    (b : Binding (option A)) : JS.exn + option A :=
  match b with
  | Initialised v => inr v
  | Uninitialised =>
      match target with
      | ES5 => inr None
      | ES2015 => inl (JS.ReferenceError name)
      end
  end.

Section Orchestrator.
(** [hash-it], [FormData] being defined, [addSearchParams] of rmk-utils,
    the script target, the adapter's [id], and the two objects the
    application configures. *)
Variable hashIt : RequestQueue.AxiosRequestConfig → option RequestQueue.Waiter → Z.
Variable FormData_defined : bool.
Variable addSearchParams : string → JS.value → string.
Variable target : ScriptTarget.
Variable id : option string.
Variable APIAdapterConfiguration : IAPIAdapterConfiguration.
Variable controller : RequestController.

(** Lines 218-221; the pattern is [/^https?:/]. *)
Definition getFullResourceURL (path : string) : string :=
  if String.prefix "http:" path || String.prefix "https:" path then path
  else HOST_URL APIAdapterConfiguration +:+ path.

(** The resolvers [queueRequest] hands to its callback (lines 64-69). *)
Definition resolve (key : string) (payload : Payload) (st : State) : State :=
  let '(q, settled) := RequestQueue.resolveRequest key payload (requestQueue st) in
  emit (map Settle settled) (set_queue q st).

Definition reject (key : string) (err : Rejection) (st : State) : State :=
  let '(q, settled) := RequestQueue.rejectRequest key err (requestQueue st) in
  emit (map Settle settled) (set_queue q st).

(** The [then] handler, lines 388-399. *)
Definition onFulfilled (o : RequestOptions) (response : AxiosResponse) : AxiosResponse :=
  let requestControllerResponse :=
    match controller_processResponse controller with
    | Some f => f response
    | None => response
    end in
  match processResponse o with
  | Some f => f requestControllerResponse
  | None => response
  end.

(** Lines 401-420. The [response] it reads is the [const response] of
    line 379: the [response] destructured from [err] on line 444 is
    scoped to the block of line 434, which this expression is outside
    of. *)
Definition requestWillRetry (response : Binding (option AxiosResponse))
    (err : AxiosError) (retryCount : nat) : JS.exn + bool :=
  let shouldRetryRequest :=
    match shouldRetryRequest controller with
    | Some f => f err retryCount
    | None => false
    end in
  if shouldRetryRequest then inr true
  else
    match read_const target "response" response with
    | inl e => inl e
    | inr None => inr false
    | inr (Some r) =>
        inr (negb (includes FAILED_REQUEST_RETRY_STATUS_BLACKLIST (res_status r))
             && bool_decide (retryCount < MAX_REQUEST_RETRY_COUNT))
    end.

(** What the [catch] handler ends in. *)
Inductive Handled : Type :=
| Throws (e : JS.exn)
| Retries
| Rejects (err : Rejection).

(** The [catch] handler, lines 400-501, up to the recursive call. It
    runs while line 379 still awaits, so [response] is not
    initialised. *)
Definition onRejected (o : RequestOptions) (key : string)
    (cancelTokenSource : CancelTokenSource) (err : AxiosError) (retryCount : nat)
    (st : State) : State * Handled :=
  match requestWillRetry Uninitialised err retryCount with
  | inl e => (st, Throws e)
  | inr willRetry =>
      let err :=
        match processResponseError controller with
        | Some f => f err
        | None => err
        end in
      let st := emit (map (fun l => ErrorEvent l err) (error_listeners controller)) st in
      let finish (st : State) :=
        if willRetry then (st, Retries)
        else (reject key (RawError err) st, Rejects (RawError err)) in
      if preProcessResponseErrorMessages APIAdapterConfiguration then
        let pending := pendingRequestCancelTokenSources st in
        let st := set_pending (splice1 (indexOf pending cancelTokenSource) pending) st in
        match errorMessage (default "operation" (label o)) err st with
        | inl e => (st, Throws e)
        | inr (message, st) =>
            if negb willRetry
            then (reject key (ErrorObject message) st, Rejects (ErrorObject message))
            else finish st
        end
      else finish st
  end.

(** Line 325 and line 519: [cacheId && APIAdapterConfiguration.cache]. *)
Definition caching (o : RequestOptions) : option (string * APIRequestCache) :=
  match cacheId o, cache APIAdapterConfiguration with
  | Some c, Some store =>
      if String.eqb c EmptyString then None else Some (c, store)
  | _, _ => None
  end.

(** Lines 504-541, for the response the [then] handler returned. *)
Definition onResponse (o : RequestOptions) (requestId key : string)
    (cancelTokenSource : CancelTokenSource) (response : AxiosResponse)
    (st : State) : State :=
  let pending := pendingRequestCancelTokenSources st in
  let st := set_pending (splice1 (indexOf pending cancelTokenSource) pending) st in
  let st :=
    match rotateHeaders controller with
    | Some f =>
        patchDefaultRequestHeaders id
          (f (res_headers response) (defaultRequestHeaders st)) st
    | None => st
    end in
  let st :=
    match caching o with
    | Some (c, _) => emit [CacheData c requestId (res_data response)] st
    | None => st
    end in
  let st :=
    match onServerSuccess o with
    | Some hook => emit [ServerSuccess hook response] st
    | None => st
    end in
  resolve key (Response response) st.

(** Lines 369-387: what an attempt does before it awaits the
    transport: a cancellation source is created, handed to the caller's
    hook if there is one, pushed on the registry, and the transport is
    invoked with the default headers overridden by the call's. *)
Definition start (o : RequestOptions) (url : string) (st : State)
  : CancelTokenSource * State :=
  let '(cancelTokenSource, st) := new_source st in
  let st :=
    match getRequestController o with
    | Some hook => emit [HandedController hook cancelTokenSource] st
    | None => st
    end in
  let st :=
    set_pending (pendingRequestCancelTokenSources st ++ [cancelTokenSource]) st in
  (cancelTokenSource,
   emit [Transport url (default ∅ (headers o) ∪ defaultRequestHeaders st)
           cancelTokenSource] st).

(** Lines 379-541 from the point where the transport has answered the
    attempt that registered [cancelTokenSource]. The head of [results]
    is that answer, the tail what the transport delivers to the
    attempts that follow; with no answer the attempt is still awaited.
    A response is an object, so the test of line 504 passes on it; the
    [catch] handler returns [undefined], so it fails after a failure. *)
Fixpoint resume (o : RequestOptions) (url requestId key : string)
    (cancelTokenSource : CancelTokenSource)
    (results : list TransportResult) (retryCount : nat) (st : State)
  : State * Outcome :=
  match results with
  | [] => (st, InFlight)
  | Success response :: _ =>
      let response := onFulfilled o response in
      (onResponse o requestId key cancelTokenSource response st,
       Fulfilled (Response response))
  | Failure err :: results' =>
      match onRejected o key cancelTokenSource err retryCount st with
      | (st, Retries) =>
          let '(cancelTokenSource, st) := start o url st in
          resume o url requestId key cancelTokenSource results' (S retryCount) st
      | (st, Throws e) => (st, Unhandled e)
      | (st, Rejects r) => (st, Failed r)
      end
  end.

(** The inner [fetchData], lines 368-542: one call per attempt. *)
Definition attempt (o : RequestOptions) (url requestId key : string)
    (results : list TransportResult) (retryCount : nat) (st : State)
  : State * Outcome :=
  let '(cancelTokenSource, st) := start o url st in
  resume o url requestId key cancelTokenSource results retryCount st.

(** Lines 327-329. *)
Definition get_equivalent (m : option string) : bool :=
  match m with
  | None => true
  | Some m =>
      String.eqb m EmptyString || String.eqb m "get" || String.eqb m "GET"
  end.

(** The callback given to [queueRequest], lines 322-544. *)
Definition callback (o : RequestOptions) (url requestId key : string)
    (results : list TransportResult) (st : State) : State * Outcome :=
  let lookup :=
    match caching o with
    | Some (c, store) =>
        if get_equivalent (method o) then getCachedData store c requestId else None
    | None => None
    end in
  match lookup with
  | Some cachedData =>
      if default false (isStale cachedData) then
        let st :=
          match getStaleWhileRevalidate o with
          | Some hook =>
              match hook (entry_data cachedData) with
              | Some thrown =>
                  emit [StaleWhileRevalidate (entry_data cachedData);
                        ConsoleError thrown] st
              | None => emit [StaleWhileRevalidate (entry_data cachedData)] st
              end
          | None => st
          end in
        attempt o url requestId key results 0 st
      else
        (resolve key (CachedData (entry_data cachedData)) st,
         Fulfilled (CachedData (entry_data cachedData)))
  | None => attempt o url requestId key results 0 st
  end.

(** The outer [fetchData], lines 282-548, called by the promise [w] at
    clock reading [now]. A call that joins a group stays in flight.
    What is hashed and queued is [{ ...options, url }]: the properties
    left by the destructuring of lines 286-295, a [url] among them
    overridden. *)
Definition fetchData (path : string) (inputOptions : RequestOptions)
    (w : RequestQueue.Waiter) (now : Z) (results : list TransportResult)
    (st : State) : State * Outcome :=
  let o := spread (defaultRequestOptions APIAdapterConfiguration) inputOptions in
  let url :=
    let baseUrl := getFullResourceURL path in
    match queryParams o with
    | Some q => if JS.truthy q then addSearchParams baseUrl q else baseUrl
    | None => baseUrl
    end in
  let config :=
    {| RequestQueue.url := url; RequestQueue.method := own_method o;
       RequestQueue.data := data o;
       RequestQueue.getRequestController := own_getRequestController o;
       RequestQueue.rest := filter (fun kv => kv.1 ≠ "url") (rest o) |} in
  let requestId := JS.Number_toString (hashIt config None) in
  let '(q, invoked) :=
    RequestQueue.queueRequest hashIt FormData_defined now
      {| RequestQueue.config := config; RequestQueue.waiter := w |}
      (requestQueue st) in
  let st := set_queue q st in
  match invoked with
  | Some key => callback o url requestId key results st
  | None => (st, InFlight)
  end.

(** Lines 578-580. *)
Definition get := fetchData.

End Orchestrator.

End Adapter.

(** ** Concrete collaborators for the examples *)

Module Samples.
Import RequestQueue.

Definition render_body (b : Body) : string :=
  match b with
  | NoData => EmptyString
  | PlainData v =>
      match JS.to_string v with
      | inr s => s
      | inl _ => "[object Object]"
      end
  | FormData _ => "[object FormData]"
  end.

Definition render_property {A} (name : A → string) (p : optional A) : string :=
  match p with
  | Absent => EmptyString
  | Undef => "undefined"
  | Given a => name a
  end.

Definition render (c : AxiosRequestConfig) : string :=
  url c +:+ "|" +:+ render_property id (method c)
  +:+ "|" +:+ render_property pretty (getRequestController c)
  +:+ "|" +:+ render_body (data c).

Fixpoint digest (s : string) (h : Z) : Z :=
  match s with
  | EmptyString => h
  | String c s' => digest s' ((h * 31 + Z.of_nat (Ascii.nat_of_ascii c)) `mod` 4294967296)%Z
  end.

(** A stand-in for [hash-it]: a digest of the properties it is given.
    Like [hash-it], which digests a function by its source text, it
    does not tell one promise's resolvers from another's, nor one
    [FormData] from another. *)
Definition textual_hash (c : AxiosRequestConfig) (w : option Waiter) : Z :=
  digest (render c) 5381.

Definition upload (w : Waiter) : QueuedRequestOptions :=
  {| config := {| url := "/files"; method := Given "POST";
                  data := FormData [("file", "report.pdf")];
                  getRequestController := Absent; rest := [] |};
     waiter := w |}.

(** An upload of another file to the same address. *)
Definition upload_photo (w : Waiter) : QueuedRequestOptions :=
  {| config := {| url := "/files"; method := Given "POST";
                  data := FormData [("file", "photo.png")];
                  getRequestController := Absent; rest := [] |};
     waiter := w |}.

Definition users (w : Waiter) : QueuedRequestOptions :=
  {| config := {| url := "/users"; method := Absent; data := NoData;
                  getRequestController := Absent; rest := [] |};
     waiter := w |}.

Import Adapter.

Definition no_hooks : RequestController :=
  {| rotateHeaders := None; controller_processResponse := None;
     processResponseError := None; shouldRetryRequest := None;
     error_listeners := [] |}.

Definition plain : RequestOptions :=
  {| own_headers := Absent; own_label := Absent; own_processResponse := Absent;
     own_cacheId := Absent; own_onServerSuccess := Absent;
     own_getStaleWhileRevalidate := Absent; own_queryParams := Absent;
     own_getRequestController := Absent; own_method := Absent;
     Adapter.data := NoData; Adapter.rest := [] |}.

Definition cached (c : string) (hook : option (JS.value → option JS.value))
  : RequestOptions :=
  {| own_headers := Absent; own_label := Absent; own_processResponse := Absent;
     own_cacheId := Given c; own_onServerSuccess := Absent;
     own_getStaleWhileRevalidate :=
       match hook with Some h => Given h | None => Absent end;
     own_queryParams := Absent; own_getRequestController := Absent;
     own_method := Given "GET"; Adapter.data := NoData; Adapter.rest := [] |}.

Definition configuration (preProcess : bool) (store : option APIRequestCache)
  : IAPIAdapterConfiguration :=
  {| HOST_URL := "https://api.example.com";
     preProcessResponseErrorMessages := preProcess;
     cache := store; defaultRequestOptions := None |}.

Definition answer (status : Z) (body : JS.value) : AxiosResponse :=
  {| res_data := body; res_status := status; res_headers := ∅ |}.

Definition failure (status : Z) (body : JS.value) : AxiosError :=
  {| err_response := Some (answer status body);
     err_message := "Request failed with status code " +:+ pretty status |}.

Definition session_expired : AxiosError :=
  failure 403 (JS.Obj [("message", JS.Str "Session expired")]).

Definition user_list : JS.value :=
  JS.Arr [JS.Obj [("name", JS.Str "ada")]].

(** A state in which the group ["k"] waits with two callers and two
    other attempts are registered. *)
Definition busy : State :=
  {| requestQueue := {[ "k" := [users 1; users 2] ]};
     pendingRequestCancelTokenSources := [0; 1];
     defaultRequestHeaders :=
       {[ "Authorization" := "Bearer old"; "Accept" := "application/json" ]};
     sources_created := 2;
     log := [] |}.

(** A controller-level processor that unwraps an envelope. *)
Definition unwrap (r : AxiosResponse) : AxiosResponse :=
  {| res_data := default JS.Undefined (JS.get (res_data r) "payload");
     res_status := res_status r; res_headers := res_headers r |}.

Definition unwrapping : RequestController :=
  {| rotateHeaders := None; controller_processResponse := Some unwrap;
     processResponseError := None; shouldRetryRequest := None;
     error_listeners := [] |}.

Definition envelope : AxiosResponse :=
  answer 200 (JS.Obj [("payload", user_list)]).

(** A controller that rotates the bearer token. *)
Definition rotate (responseHeaders requestHeaders : gmap string string)
  : option (gmap string string) :=
  (fun token => {[ "Authorization" := "Bearer " +:+ token ]}) <$> responseHeaders !! "x-next-token".

Definition rotating : RequestController :=
  {| rotateHeaders := Some rotate; controller_processResponse := None;
     processResponseError := None; shouldRetryRequest := None;
     error_listeners := [] |}.

Definition with_token : AxiosResponse :=
  {| res_data := user_list; res_status := 200;
     res_headers := {[ "x-next-token" := "new" ]} |}.

(** A controller that asks for one retry, whatever the error. *)
Definition retrying : RequestController :=
  {| rotateHeaders := None; controller_processResponse := None;
     processResponseError := None;
     shouldRetryRequest := Some (fun _ numberOfTrials => bool_decide (numberOfTrials < 1));
     error_listeners := [] |}.

(** A cache that holds one entry, for every request of the cache
    ["users"]. *)
Definition store (stale : option bool) : APIRequestCache :=
  {| getCachedData := fun cacheId requestId =>
       if String.eqb cacheId "users"
       then Some {| isStale := stale; entry_data := JS.Arr [] |}
       else None |}.


(** The adapter before any call. *)
Definition idle : State :=
  {| requestQueue := ∅; pendingRequestCancelTokenSources := [];
     defaultRequestHeaders := ∅; sources_created := 0; log := [] |}.

Definition no_addSearchParams (baseUrl : string) (q : JS.value) : string := baseUrl.

End Samples.

(** ** The rest of the adapter's surface *)

Module Surface.
Import Adapter.

(** The settlements a log records, in order. *)
Definition settlements (l : list Event)
  : list (RequestQueue.Settlement Payload Rejection) :=
  omap (fun e => match e with Settle s => Some s | _ => None end) l.

(** The error events a log records: listener and error, in order. *)
Definition error_events (l : list Event) : list (nat * AxiosError) :=
  omap (fun e => match e with ErrorEvent i err => Some (i, err) | _ => None end) l.

(** Lines 421-423: the error after [processResponseError]. *)
Definition processed (controller : RequestController) (err : AxiosError) : AxiosError :=
  match processResponseError controller with
  | Some f => f err
  | None => err
  end.

(** ToString throws on the unprintable values, a TypeError, and on no
    others. *)
Definition prints_or_throws (v : JS.value) : Prop :=
  match JS.to_string v with
  | inl e => e = JS.TypeError ∧ JS.unprintable v = true
  | inr _ => JS.unprintable v = false
  end.

(** Lines 463-467: the exception, or the joined messages. *)
Definition joined_errors (errs : list JS.value) : JS.exn + string :=
  match messages_of errs with
  | inl x => inl x
  | inr ms => JS.join_values newline ms
  end.

(** Whether lines 448-470 run to their end on the body of [err], if
    they run at all. *)
Definition extractable (err : AxiosError) : bool :=
  match err_response err with
  | Some response =>
      if JS.truthy (res_data response) then
        match serverSideMessage (res_data response) with
        | inl _ => false
        | inr _ => true
        end
      else true
  | None => true
  end.

(** Whether lines 446-477 find a session-expiry phrase in [err]. *)
Definition session_expiry (err : AxiosError) : bool :=
  match err_response err with
  | Some response =>
      JS.truthy (res_data response)
      && match serverSideMessage (res_data response) with
         | inl _ => false
         | inr message => includes EXPIRED_SESSION_ERROR_MESSAGES message
         end
  | None => false
  end.

(** *** Bursts of calls *)

(** The calls of a burst that have the fingerprint [k], in order. *)
Definition joined (hashIt : RequestQueue.AxiosRequestConfig → option RequestQueue.Waiter → Z)
    (FormData_defined : bool) (k : string)
    (calls : list (Z * RequestQueue.QueuedRequestOptions))
  : list RequestQueue.QueuedRequestOptions :=
  (filter (fun c => RequestQueue.requestId hashIt FormData_defined c.1 c.2 = k) calls).*2.

(** *** The fingerprint of a call *)

Section Fingerprint.
Variable hashIt : RequestQueue.AxiosRequestConfig → option RequestQueue.Waiter → Z.
Variable FormData_defined : bool.
Variable addSearchParams : string → JS.value → string.
Variable APIAdapterConfiguration : IAPIAdapterConfiguration.

(** Lines 286-304: the options [fetchData] works with, and the URL. *)
Definition merged (inputOptions : RequestOptions) : RequestOptions :=
  spread (defaultRequestOptions APIAdapterConfiguration) inputOptions.

Definition resolved_url (path : string) (inputOptions : RequestOptions) : string :=
  let baseUrl := getFullResourceURL APIAdapterConfiguration path in
  match queryParams (merged inputOptions) with
  | Some q => if JS.truthy q then addSearchParams baseUrl q else baseUrl
  | None => baseUrl
  end.

(** Lines 316-321: what [fetchData] hands to [queueRequest]. *)
Definition queued (path : string) (inputOptions : RequestOptions)
    (w : RequestQueue.Waiter) : RequestQueue.QueuedRequestOptions :=
  {| RequestQueue.config :=
       {| RequestQueue.url := resolved_url path inputOptions;
          RequestQueue.method := own_method (merged inputOptions);
          RequestQueue.data := data (merged inputOptions);
          RequestQueue.getRequestController :=
            own_getRequestController (merged inputOptions);
          RequestQueue.rest :=
            filter (fun kv => kv.1 ≠ "url") (rest (merged inputOptions)) |};
     RequestQueue.waiter := w |}.

(** The key under which the call is queued. *)
Definition fingerprint (path : string) (inputOptions : RequestOptions)
    (w : RequestQueue.Waiter) (now : Z) : string :=
  RequestQueue.requestId hashIt FormData_defined now (queued path inputOptions w).

End Fingerprint.

(** *** The verbs (lines 556-636) *)

(** ToBoolean of a request body; a [FormData] is an object. *)
Definition truthy_body (b : RequestQueue.Body) : bool :=
  match b with
  | RequestQueue.NoData => false
  | RequestQueue.PlainData v => JS.truthy v
  | RequestQueue.FormData _ => true
  end.

(** [typeof v === 'object']. *)
Definition typeof_object (v : JS.value) : bool :=
  match v with
  | JS.Null | JS.Arr _ | JS.Obj _ => true
  | _ => false
  end.

Definition with_headers_data (h : gmap string string) (d : RequestQueue.Body)
    (o : RequestOptions) : RequestOptions :=
  {| own_headers := Given h; own_label := own_label o;
     own_processResponse := own_processResponse o;
     own_cacheId := own_cacheId o; own_onServerSuccess := own_onServerSuccess o;
     own_getStaleWhileRevalidate := own_getStaleWhileRevalidate o;
     own_queryParams := own_queryParams o;
     own_getRequestController := own_getRequestController o;
     own_method := own_method o; data := d; rest := rest o |}.

(** [options.method = m]. *)
Definition with_method (m : string) (o : RequestOptions) : RequestOptions :=
  {| own_headers := own_headers o; own_label := own_label o;
     own_processResponse := own_processResponse o;
     own_cacheId := own_cacheId o; own_onServerSuccess := own_onServerSuccess o;
     own_getStaleWhileRevalidate := own_getStaleWhileRevalidate o;
     own_queryParams := own_queryParams o;
     own_getRequestController := own_getRequestController o;
     own_method := Given m; data := data o; rest := rest o |}.

Section Verbs.
(** The parameters of the orchestrator, and [JSON.stringify] on request
    bodies. *)
Variable hashIt : RequestQueue.AxiosRequestConfig → option RequestQueue.Waiter → Z.
Variable FormData_defined : bool.
Variable addSearchParams : string → JS.value → string.
Variable target : ScriptTarget.
Variable id : option string.
Variable APIAdapterConfiguration : IAPIAdapterConfiguration.
Variable controller : RequestController.
Variable JSON_stringify : RequestQueue.Body → string.

(** Lines 556-569, on a copy of the options. The copy is shallow: when
    the caller gave a headers object, that object receives the
    [Content-Type] too, which a function from options to options does
    not show. *)
Definition getRequestDefaultOptions (o : RequestOptions) : RequestOptions :=
  let h := default ∅ (headers o) in
  let content_type_set :=
    match h !! "Content-Type" with
    | Some v => negb (String.eqb v EmptyString)
    | None => false
    end in
  if truthy_body (data o) && negb content_type_set then
    if FormData_defined && RequestQueue.instanceof_FormData (data o) then
      with_headers_data (<["Content-Type" := "multipart/form-data"]> h) (data o) o
    else if match data o with
            | RequestQueue.PlainData v => typeof_object v
            | RequestQueue.FormData _ => true
            | RequestQueue.NoData => false
            end then
      with_headers_data (<["Content-Type" := "application/json"]> h)
        (RequestQueue.PlainData (JS.Str (JSON_stringify (data o)))) o
    else with_headers_data h (data o) o
  else with_headers_data h (data o) o.

Local Abbreviation fetchData :=
  (fetchData hashIt FormData_defined addSearchParams target id
     APIAdapterConfiguration controller).

(** Lines 588-594. *)
Definition post (path : string) (o : RequestOptions) :=
  fetchData path (getRequestDefaultOptions (with_method "POST" o)).

(** Lines 603-609. *)
Definition put (path : string) (o : RequestOptions) :=
  fetchData path (getRequestDefaultOptions (with_method "PUT" o)).

(** Lines 618-624. *)
Definition patch (path : string) (o : RequestOptions) :=
  fetchData path (getRequestDefaultOptions (with_method "PATCH" o)).

(** Lines 633-636; the method is written into the caller's own options
    object. *)
Definition _delete (path : string) (o : RequestOptions) :=
  fetchData path (with_method "DELETE" o).

End Verbs.

(** *** Default headers and their store (lines 201-257, 638-640) *)

(** [defaultRequestHeaders] with the entries of [StorageManager]; what
    [StorageManager.get] gives back is what [StorageManager.add] was
    given. *)
Record HeaderStore : Type := {
  current : gmap string string;
  StorageManager : gmap string (gmap string string)
}.

(** Lines 227-232; it runs when the adapter is created and on every
    [focus] of the window. *)
Definition setDefaultRequestHeaders (id : option string) (hs : HeaderStore) : HeaderStore :=
  match StorageManager hs !! defaultRequestHeadersStorageKey id with
  | Some cachedDefaultRequestHeaders =>
      {| current := Object_assign (current hs) (Some cachedDefaultRequestHeaders);
         StorageManager := StorageManager hs |}
  | None => hs
  end.

(** Lines 244-247, with the store in place of the log entry. *)
Definition patchStoredRequestHeaders (id : option string)
    (headers : option (gmap string string)) (hs : HeaderStore) : HeaderStore :=
  let merged := Object_assign (current hs) headers in
  {| current := merged;
     StorageManager := <[defaultRequestHeadersStorageKey id := merged]> (StorageManager hs) |}.

(** Lines 252-257. *)
Definition clearDefaultRequestHeaders (id : option string) (hs : HeaderStore) : HeaderStore :=
  {| current := ∅;
     StorageManager := delete (defaultRequestHeadersStorageKey id) (StorageManager hs) |}.

(** Lines 638-640. *)
Definition logout := clearDefaultRequestHeaders.

(** Lines 225-233: the default headers of an adapter just created over
    a given storage. *)
Definition getAPIAdapter_headers (id : option string)
    (storage : gmap string (gmap string string)) : HeaderStore :=
  setDefaultRequestHeaders id {| current := ∅; StorageManager := storage |}.

(** *** Error listeners (lines 259-271) *)

Definition with_listeners (ls : list nat) (c : RequestController) : RequestController :=
  {| rotateHeaders := rotateHeaders c;
     controller_processResponse := controller_processResponse c;
     processResponseError := processResponseError c;
     shouldRetryRequest := shouldRetryRequest c;
     error_listeners := ls |}.

Definition addEventListener (listener : nat) (c : RequestController) : RequestController :=
  with_listeners (error_listeners c ++ [listener]) c.

Definition removeEventListener (listener : nat) (c : RequestController) : RequestController :=
  match indexOf (error_listeners c) listener with
  | Some index => with_listeners (delete index (error_listeners c)) c
  | None => c
  end.


(** A stand-in for [JSON.stringify] on bodies. *)
Definition to_text (b : RequestQueue.Body) : string :=
  match b with
  | RequestQueue.PlainData v =>
      match JS.to_string v with
      | inr s => s
      | inl _ => "{}"
      end
  | _ => "{}"
  end.

(** A [post] of an object, to be cached under ["users"]. *)
Definition new_user : RequestOptions :=
  {| own_headers := Given {[ "X-Trace" := "7" ]}; own_label := Absent;
     own_processResponse := Absent; own_cacheId := Given "users";
     own_onServerSuccess := Absent; own_getStaleWhileRevalidate := Absent;
     own_queryParams := Absent; own_getRequestController := Absent;
     own_method := Absent;
     data := RequestQueue.PlainData (JS.Obj [("name", JS.Str "ada")]);
     rest := [] |}.

(** A tab with a token in force and stored, and the entry of another
    adapter in the same storage. *)
Definition signed_in : HeaderStore :=
  {| current := {[ "Authorization" := "Bearer old" ]};
     StorageManager :=
       {[ "defaultRequestHeaders" := {[ "Authorization" := "Bearer old" ]};
          "defaultRequestHeadersadmin" := {[ "X-Role" := "admin" ]} ]} |}.

(** A failure whose body lists a [null] among its [errors]. *)
Definition malformed : AxiosError :=
  Samples.failure 422 (JS.Obj [("errors", JS.Arr [JS.Null])]).

(** A controller that asks for a retry every time. *)
Definition insisting : RequestController :=
  {| rotateHeaders := None; controller_processResponse := None;
     processResponseError := None;
     shouldRetryRequest := Some (fun _ _ => true);
     error_listeners := [] |}.

End Surface.

(** * Properties of the queue *)

Module QueueFacts.
Import RequestQueue.

Section Dedup.
Variable hashIt : AxiosRequestConfig → option Waiter → Z.
Variable FormData_defined : bool.
Context {P E : Type}.

Local Abbreviation requestId := (requestId hashIt FormData_defined).
Local Abbreviation queueRequest := (queueRequest hashIt FormData_defined).
Local Abbreviation queueRequests := (queueRequests hashIt FormData_defined).

Lemma queueRequest_new now r (q : gmap string (list QueuedRequestOptions)) :
  q !! requestId now r = None →
  queueRequest now r q = (<[requestId now r := [r]]> q, Some (requestId now r)).
Proof. intros H. unfold RequestQueue.queueRequest. by rewrite H. Qed.

Lemma queueRequest_join now r group (q : gmap string (list QueuedRequestOptions)) :
  q !! requestId now r = Some group →
  queueRequest now r q = (<[requestId now r := group ++ [r]]> q, None).
Proof. intros H. unfold RequestQueue.queueRequest. by rewrite H. Qed.

(** Calls that arrive while their group is pending are appended to it,
    and [callback] is not invoked for any of them. *)
Lemma queueRequests_join k calls :
  ∀ group (q : gmap string (list QueuedRequestOptions)),
    Forall (fun c => requestId c.1 c.2 = k) calls →
    q !! k = Some group →
    queueRequests calls q = (<[k := group ++ calls.*2]> q, []).
Proof.
  induction calls as [|[now r] calls IH]; intros group q Hall Hq; simpl.
  - by rewrite app_nil_r, insert_id.
  - apply Forall_cons in Hall as [Hk Hall]. simpl in Hk.
    rewrite (queueRequest_join now r group q) by by rewrite Hk.
    rewrite Hk, (IH (group ++ [r]) _ Hall) by apply lookup_insert_eq.
    by rewrite insert_insert_eq, <- app_assoc.
Qed.

Lemma resolveRequest_group k (p : P) group (q : gmap string (list QueuedRequestOptions)) :
  q !! k = Some group → group ≠ [] →
  resolveRequest (E := E) k p q
  = (delete k q, map (fun r => Resolved (waiter r) p) group).
Proof.
  intros Hq Hne. unfold resolveRequest. rewrite Hq.
  destruct group; [done|]. rewrite bool_decide_eq_true_2; [done|simpl; lia].
Qed.

Lemma rejectRequest_group k (e : E) group (q : gmap string (list QueuedRequestOptions)) :
  q !! k = Some group → group ≠ [] →
  rejectRequest (P := P) k e q
  = (delete k q, map (fun r => Rejected (waiter r) e) group).
Proof.
  intros Hq Hne. unfold rejectRequest. rewrite Hq.
  destruct group; [done|]. rewrite bool_decide_eq_true_2; [done|simpl; lia].
Qed.

(** Settling a group that is gone does nothing. *)
Lemma resolveRequest_gone k (p : P) (q : gmap string (list QueuedRequestOptions)) :
  q !! k = None → resolveRequest (E := E) k p q = (q, []).
Proof. intros Hq. unfold resolveRequest. by rewrite Hq. Qed.

(** C1. N >= 1 calls made while none has settled, all with the
    fingerprint [k], no group being pending for [k] before the first:
    [callback] is invoked once, for the first call (one dispatch); the
    group holds the N callers in order; resolving it hands every one of
    them the same payload, rejecting it the same error, and either way
    the group is removed. *)
Theorem dedup_single_dispatch_same_value
    (calls : list (Z * QueuedRequestOptions)) (k : string)
    (q : gmap string (list QueuedRequestOptions)) :
  1 ≤ length calls →
  Forall (fun c => requestId c.1 c.2 = k) calls →
  q !! k = None →
  let q' := (queueRequests calls q).1 in
  (queueRequests calls q).2 = [k]
  ∧ q' !! k = Some calls.*2
  ∧ (∀ p : P, resolveRequest (E := E) k p q'
              = (q, map (fun r => Resolved (waiter r) p) calls.*2))
  ∧ (∀ e : E, rejectRequest (P := P) k e q'
              = (q, map (fun r => Rejected (waiter r) e) calls.*2)).
Proof.
  intros Hlen Hall Hq.
  destruct calls as [|[now r] calls]; [simpl in Hlen; lia|].
  apply Forall_cons in Hall as [Hk Hall]. simpl in Hk.
  cbn zeta. simpl.
  rewrite (queueRequest_new now r q) by by rewrite Hk.
  rewrite Hk, (queueRequests_join k calls [r] _ Hall) by apply lookup_insert_eq.
  rewrite insert_insert_eq. simpl.
  assert (Hdel : delete k (<[k:=r :: calls.*2]> q) = q)
    by (by rewrite delete_insert_eq, delete_id).
  split; [done|]. split; [apply lookup_insert_eq|]. split.
  - intros p. erewrite resolveRequest_group; [|apply lookup_insert_eq|done].
    by rewrite Hdel.
  - intros e. erewrite rejectRequest_group; [|apply lookup_insert_eq|done].
    by rewrite Hdel.
Qed.

End Dedup.

Lemma dedup_single_dispatch_same_value_witness :
  let calls := [(1000%Z, Samples.users 1); (1001%Z, Samples.users 2);
                (1002%Z, Samples.users 3)] in
  let k := requestId Samples.textual_hash true 1000%Z (Samples.users 1) in
  (queueRequests Samples.textual_hash true calls ∅).2 = [k]
  ∧ (∀ p : Adapter.Payload,
       resolveRequest (E := Adapter.Rejection) k p
         (queueRequests Samples.textual_hash true calls ∅).1
       = (∅, [Resolved 1 p; Resolved 2 p; Resolved 3 p])).
Proof.
  intros calls k.
  destruct (dedup_single_dispatch_same_value Samples.textual_hash true
              (P := Adapter.Payload) (E := Adapter.Rejection) calls k ∅)
    as (Hone & _ & Hres & _).
  - simpl. lia.
  - repeat constructor.
  - reflexivity.
  - split; [exact Hone | exact Hres].
Defined.

Section Multipart.
Variable hashIt : AxiosRequestConfig → option Waiter → Z.
Context {P E : Type}.

Local Abbreviation requestId := (requestId hashIt true).
Local Abbreviation queueRequests := (queueRequests hashIt true).

(** The fingerprint of a multipart request is that of its options with
    the body replaced by the clock reading. *)
Lemma requestId_FormData now r :
  instanceof_FormData (data (config r)) = true →
  requestId now r
  = JS.Number_toString
      (hashIt (with_data (PlainData (JS.Num now)) (config r)) (Some (waiter r))).
Proof.
  intros H. unfold RequestQueue.requestId, hashableRequestOptions. by rewrite H.
Qed.

(** C8. The code at a failing input: two multipart requests, of any
    contents, with otherwise the same options, enqueued at the same
    reading of the clock, no group being pending for them. The stand-in
    for the body is the same number for both, so what is hashed is the
    same object, whatever the hash (it does not tell the resolvers of
    one promise from those of another); the two share a fingerprint,
    [callback] is invoked for the first only, the second joins the
    first one's group, and a settlement of that group reaches both
    callers with the one value. *)
Theorem multipart_same_millisecond_deduplicated
    (now : Z) (r1 r2 : QueuedRequestOptions)
    (q : gmap string (list QueuedRequestOptions)) :
  instanceof_FormData (data (config r1)) = true →
  instanceof_FormData (data (config r2)) = true →
  url (config r1) = url (config r2) →
  method (config r1) = method (config r2) →
  getRequestController (config r1) = getRequestController (config r2) →
  rest (config r1) = rest (config r2) →
  (∀ c w w', hashIt c (Some w) = hashIt c (Some w')) →
  q !! requestId now r1 = None →
  let k := requestId now r1 in
  hashableRequestOptions true now r1 = hashableRequestOptions true now r2
  ∧ requestId now r2 = k
  ∧ queueRequests [(now, r1); (now, r2)] q = (<[k := [r1; r2]]> q, [k])
  ∧ (∀ p : P, resolveRequest (E := E) k p (<[k := [r1; r2]]> q)
              = (q, [Resolved (waiter r1) p; Resolved (waiter r2) p])).
Proof.
  intros H1 H2 Hu Hm Hc Hr Hblind Hq k.
  assert (Hsame : hashableRequestOptions true now r1 = hashableRequestOptions true now r2).
  { unfold hashableRequestOptions. rewrite H1, H2. unfold with_data.
    by rewrite Hu, Hm, Hc, Hr. }
  assert (Hid : requestId now r2 = k).
  { unfold k, RequestQueue.requestId. rewrite Hsame. f_equal. apply Hblind. }
  split; [done|]. split; [done|]. split.
  - simpl. rewrite (queueRequest_new hashIt true now r1 q Hq). fold k.
    rewrite (queueRequest_join hashIt true now r2 [r1]).
    + by rewrite Hid, insert_insert_eq.
    + rewrite Hid. apply lookup_insert_eq.
  - intros p. erewrite resolveRequest_group; [|apply lookup_insert_eq|done].
    by rewrite delete_insert_eq, delete_id.
Qed.

End Multipart.

Lemma multipart_same_millisecond_deduplicated_witness :
  let r1 := Samples.upload 1 in
  let r2 := Samples.upload_photo 2 in
  let now := 1700000000000%Z in
  let k := requestId Samples.textual_hash true now r1 in
  data (config r1) ≠ data (config r2)
  ∧ queueRequests Samples.textual_hash true [(now, r1); (now, r2)] ∅
    = ({[ k := [r1; r2] ]}, [k])
  ∧ (∀ p : Adapter.Payload,
       resolveRequest (E := Adapter.Rejection) k p {[ k := [r1; r2] ]}
       = (∅, [Resolved 1 p; Resolved 2 p])).
Proof.
  intros r1 r2 now k.
  destruct (multipart_same_millisecond_deduplicated Samples.textual_hash
              (P := Adapter.Payload) (E := Adapter.Rejection) now r1 r2 ∅)
    as (_ & _ & Hqueue & Hsettle); try reflexivity.
  split; [discriminate|]. split.
  - etrans; [exact Hqueue|]. by rewrite insert_empty.
  - intros p. specialize (Hsettle p). by rewrite insert_empty in Hsettle.
Defined.

End QueueFacts.

(** * Properties of the request pipeline *)

Module AdapterFacts.
Import RequestQueue Adapter.

(** ** What settling and logging leave alone *)

Lemma transports_app l1 l2 : transports (l1 ++ l2) = transports l1 + transports l2.
Proof. unfold transports. by rewrite List.filter_app, length_app. Qed.

Lemma transports_Settle (ss : list (Settlement Payload Rejection)) :
  transports (map Settle ss) = 0.
Proof. by induction ss. Qed.

Lemma transports_settled {A} (f : A → Settlement Payload Rejection) (l : list A) :
  transports (map (fun r => Settle (f r)) l) = 0.
Proof. by induction l. Qed.

Lemma transports_Cancel ts : transports (map Cancel ts) = 0.
Proof. by induction ts. Qed.

Lemma transports_ErrorEvent ls err : transports (map (fun l => ErrorEvent l err) ls) = 0.
Proof. by induction ls. Qed.

Lemma cancelled_app l1 l2 : cancelled (l1 ++ l2) = cancelled l1 ++ cancelled l2.
Proof. apply omap_app. Qed.


Lemma resolve_group key p st group :
  requestQueue st !! key = Some group → group ≠ [] →
  resolve key p st
  = emit (map (fun r => Settle (Resolved (waiter r) p)) group)
      (set_queue (delete key (requestQueue st)) st).
Proof.
  intros Hq Hne. unfold resolve.
  rewrite (QueueFacts.resolveRequest_group key p group _ Hq Hne).
  by rewrite map_map.
Qed.

Lemma reject_group key e st group :
  requestQueue st !! key = Some group → group ≠ [] →
  reject key e st
  = emit (map (fun r => Settle (Rejected (waiter r) e)) group)
      (set_queue (delete key (requestQueue st)) st).
Proof.
  intros Hq Hne. unfold reject.
  rewrite (QueueFacts.rejectRequest_group key e group _ Hq Hne).
  by rewrite map_map.
Qed.

Lemma resolve_frame key p st :
  pendingRequestCancelTokenSources (resolve key p st) = pendingRequestCancelTokenSources st
  ∧ defaultRequestHeaders (resolve key p st) = defaultRequestHeaders st
  ∧ sources_created (resolve key p st) = sources_created st
  ∧ transports (log (resolve key p st)) = transports (log st)
  ∧ cancelled (log (resolve key p st)) = cancelled (log st).
Proof.
  unfold resolve. destruct (resolveRequest _ _ _) as [q ss]. simpl.
  rewrite transports_app, transports_Settle, cancelled_app.
  repeat split; try lia.
  assert (cancelled (map Settle ss) = []) as -> by by induction ss.
  by rewrite app_nil_r.
Qed.

Lemma reject_frame key e st :
  pendingRequestCancelTokenSources (reject key e st) = pendingRequestCancelTokenSources st
  ∧ defaultRequestHeaders (reject key e st) = defaultRequestHeaders st
  ∧ sources_created (reject key e st) = sources_created st
  ∧ transports (log (reject key e st)) = transports (log st)
  ∧ cancelled (log (reject key e st)) = cancelled (log st).
Proof.
  unfold reject. destruct (rejectRequest _ _ _) as [q ss]. simpl.
  rewrite transports_app, transports_Settle, cancelled_app.
  repeat split; try lia.
  assert (cancelled (map Settle ss) = []) as -> by by induction ss.
  by rewrite app_nil_r.
Qed.

(** ** The retry decision *)

(** With the response of the error in its place, the expression of
    lines 412-419 is the default heuristic. *)
Lemma requestWillRetry_initialised target ctl r err n :
  shouldRetryRequest ctl = None →
  requestWillRetry target ctl (Initialised (Some r)) err n
  = inr (negb (includes FAILED_REQUEST_RETRY_STATUS_BLACKLIST (res_status r))
         && bool_decide (n < MAX_REQUEST_RETRY_COUNT)).
Proof. intros H. unfold requestWillRetry. by rewrite H. Qed.

(** Where the handler evaluates it, the hook alone decides. *)
Lemma requestWillRetry_uninitialised target ctl err n :
  requestWillRetry target ctl Uninitialised err n
  = if match shouldRetryRequest ctl with Some f => f err n | None => false end
    then inr true
    else match target with
         | ES5 => inr false
         | ES2015 => inl (JS.ReferenceError "response")
         end.
Proof.
  unfold requestWillRetry. cbn zeta.
  destruct (shouldRetryRequest ctl) as [f|]; [destruct (f err n)|];
    destruct target; done.
Qed.

(** C2. The code at a failing input: no [shouldRetryRequest] hook, a
    first attempt answered with status 503, which is not on the
    blacklist. The claim has it retried; the handler's decision is
    negative (or a ReferenceError), the transport is invoked once, and
    the response the transport would have given to a second attempt is
    never asked for. The same holds for every status and attempt
    number. *)
Theorem default_retry_never_taken (target : ScriptTarget) :
  let err := Samples.failure 503 JS.Null in
  let run :=
    attempt target None (Samples.configuration true None) Samples.no_hooks
      Samples.plain "/users" "1" "k"
      [Failure err; Success (Samples.answer 200 Samples.user_list)] 0 Samples.busy in
  includes FAILED_REQUEST_RETRY_STATUS_BLACKLIST 503%Z = false
  ∧ (∀ status body n,
       requestWillRetry target Samples.no_hooks Uninitialised
         (Samples.failure status body) n
       = match target with
         | ES5 => inr false
         | ES2015 => inl (JS.ReferenceError "response")
         end)
  ∧ transports (log run.1) = 1
  ∧ run.2 = match target with
            | ES5 => Failed (ErrorObject "Error: 'operation' failed. Something went wrong")
            | ES2015 => Unhandled (JS.ReferenceError "response")
            end.
Proof.
  split; [done|]. split.
  - intros status body n. by rewrite requestWillRetry_uninitialised.
  - destruct target; split; reflexivity.
Qed.

(** ** The [then] handler *)

Lemma onFulfilled_cases ctl o r :
  onFulfilled ctl o r
  = match controller_processResponse ctl, processResponse o with
    | Some f, Some g => g (f r)
    | None, Some g => g r
    | _, None => r
    end.
Proof.
  unfold onFulfilled.
  destruct (controller_processResponse ctl), (processResponse o); done.
Qed.

Lemma attempt_Success target id cfg ctl o url rid key r results n st :
  (attempt target id cfg ctl o url rid key (Success r :: results) n st).2
  = Fulfilled (Response (onFulfilled ctl o r)).
Proof. unfold attempt. by destruct (start o url st). Qed.

(** C5. The code where only the controller-level processor [f] is
    configured: the [then] handler returns the response it was given,
    and the group is settled with it, not with [f]'s output. *)
Theorem controller_processor_output_discarded
    target id cfg ctl o url rid key f r results n st :
  controller_processResponse ctl = Some f →
  processResponse o = None →
  onFulfilled ctl o r = r
  ∧ (attempt target id cfg ctl o url rid key (Success r :: results) n st).2
    = Fulfilled (Response r).
Proof.
  intros Hf Hg. rewrite attempt_Success, onFulfilled_cases, Hf, Hg. done.
Qed.

Lemma controller_processor_output_discarded_witness :
  Samples.unwrap Samples.envelope ≠ Samples.envelope
  ∧ onFulfilled Samples.unwrapping Samples.plain Samples.envelope = Samples.envelope
  ∧ (attempt ES5 None (Samples.configuration true None) Samples.unwrapping
       Samples.plain "/users" "1" "k" [Success Samples.envelope] 0 Samples.busy).2
    = Fulfilled (Response Samples.envelope).
Proof.
  split; [discriminate|].
  apply (controller_processor_output_discarded ES5 None
           (Samples.configuration true None) Samples.unwrapping Samples.plain
           "/users" "1" "k" Samples.unwrap Samples.envelope [] 0 Samples.busy);
    reflexivity.
Defined.

(** ** The registry of cancellation handles *)

Lemma start_frame o url st :
  (start o url st).1 = sources_created st
  ∧ pendingRequestCancelTokenSources (start o url st).2
    = pendingRequestCancelTokenSources st ++ [sources_created st]
  ∧ defaultRequestHeaders (start o url st).2 = defaultRequestHeaders st
  ∧ requestQueue (start o url st).2 = requestQueue st
  ∧ sources_created (start o url st).2 = S (sources_created st)
  ∧ transports (log (start o url st).2) = S (transports (log st))
  ∧ cancelled (log (start o url st).2) = cancelled (log st).
Proof.
  unfold start. simpl.
  destruct (getRequestController o); simpl;
    rewrite ?transports_app, ?cancelled_app; simpl;
    rewrite ?app_nil_r; repeat split; unfold transports; simpl; lia.
Qed.

Lemma attempt_eq target id cfg ctl o url rid key results n st :
  attempt target id cfg ctl o url rid key results n st
  = let cancelTokenSource := (start o url st).1 in
    let st := (start o url st).2 in
    match results with
    | [] => (st, InFlight)
    | Success response :: _ =>
        (onResponse id cfg ctl o rid key cancelTokenSource (onFulfilled ctl o response) st,
         Fulfilled (Response (onFulfilled ctl o response)))
    | Failure err :: results' =>
        match onRejected target cfg ctl o key cancelTokenSource err n st with
        | (st, Retries) => attempt target id cfg ctl o url rid key results' (S n) st
        | (st, Throws e) => (st, Unhandled e)
        | (st, Rejects r) => (st, Failed r)
        end
    end.
Proof.
  unfold attempt. destruct (start o url st) as [tok st1].
  by destruct results as [|[r|err] results].
Qed.

(** The handler with the message preprocessing off. *)
Lemma onRejected_flag_off target cfg ctl o key tok err n st :
  preProcessResponseErrorMessages cfg = false →
  onRejected target cfg ctl o key tok err n st
  = match requestWillRetry target ctl Uninitialised err n with
    | inl e => (st, Throws e)
    | inr willRetry =>
        let err := match processResponseError ctl with Some f => f err | None => err end in
        let st := emit (map (fun l => ErrorEvent l err) (error_listeners ctl)) st in
        if willRetry then (st, Retries)
        else (reject key (RawError err) st, Rejects (RawError err))
    end.
Proof. intros H. unfold onRejected. by rewrite H. Qed.

(** C7. The code with [preProcessResponseErrorMessages] off and no
    hooks: an attempt whose transport call fails is over (the group is
    rejected with the error, or the handler has thrown), and the handle
    it pushed when it started is still in the registry. *)
Theorem failed_attempt_handle_stays_registered
    (target : ScriptTarget) o url rid key err results st :
  let run :=
    attempt target None (Samples.configuration false None) Samples.no_hooks
      o url rid key (Failure err :: results) 0 st in
  run.2 = match target with
          | ES5 => Failed (RawError err)
          | ES2015 => Unhandled (JS.ReferenceError "response")
          end
  ∧ pendingRequestCancelTokenSources run.1
    = pendingRequestCancelTokenSources st ++ [sources_created st].
Proof.
  cbn zeta. rewrite attempt_eq. cbn zeta.
  rewrite onRejected_flag_off, requestWillRetry_uninitialised by done.
  destruct (start_frame o url st) as (_ & Hpending & _).
  set (started := start o url st) in *. clearbody started.
  destruct target; simpl; [|done].
  split; [done|].
  by destruct (reject_frame key (RawError err) (emit [] started.2)) as [-> _].
Qed.

(** ** Header rotation *)

Lemma onResponse_frame id cfg ctl o rid key tok r st :
  defaultRequestHeaders (onResponse id cfg ctl o rid key tok r st)
  = match rotateHeaders ctl with
    | Some f =>
        Object_assign (defaultRequestHeaders st)
          (f (res_headers r) (defaultRequestHeaders st))
    | None => defaultRequestHeaders st
    end
  ∧ pendingRequestCancelTokenSources (onResponse id cfg ctl o rid key tok r st)
    = splice1 (indexOf (pendingRequestCancelTokenSources st) tok)
        (pendingRequestCancelTokenSources st)
  ∧ transports (log (onResponse id cfg ctl o rid key tok r st)) = transports (log st).
Proof.
  unfold onResponse. cbn zeta.
  match goal with
  | |- context [resolve ?k ?p ?s] =>
      destruct (resolve_frame k p s) as (-> & -> & _ & -> & _)
  end.
  destruct (onServerSuccess o), (caching cfg o) as [[? ?]|], (rotateHeaders ctl);
    simpl; rewrite ?transports_app; unfold transports; simpl; repeat split; lia.
Qed.

(** C9. A successful response with [rotateHeaders] configured: a key of
    the mapping the hook returns has, in the default headers
    afterwards, the value the hook gave it; a key the hook did not
    return has the value it had before; and when the hook returns
    nothing the default headers are as before. *)
Theorem rotated_headers_merged
    target id cfg ctl o url rid key f r results n st (k : string) :
  rotateHeaders ctl = Some f →
  let returned := f (res_headers (onFulfilled ctl o r)) (defaultRequestHeaders st) in
  let after :=
    defaultRequestHeaders
      (attempt target id cfg ctl o url rid key (Success r :: results) n st).1 in
  (∀ m v, returned = Some m → m !! k = Some v → after !! k = Some v)
  ∧ (∀ m, returned = Some m → m !! k = None →
          after !! k = defaultRequestHeaders st !! k)
  ∧ (returned = None → after = defaultRequestHeaders st).
Proof.
  intros Hf returned after.
  assert (Hafter : after = Object_assign (defaultRequestHeaders st) returned).
  { unfold after, returned. rewrite attempt_eq. cbn zeta. cbn [fst].
    destruct (onResponse_frame id cfg ctl o rid key (start o url st).1
                (onFulfilled ctl o r) (start o url st).2) as (-> & _).
    rewrite Hf. by destruct (start_frame o url st) as (_ & _ & -> & _). }
  rewrite Hafter. repeat split.
  - intros m v -> Hm. simpl. by apply lookup_union_Some_l.
  - intros m -> Hm. simpl. by apply lookup_union_r.
  - by intros ->.
Qed.

Lemma rotated_headers_merged_witness :
  let after :=
    defaultRequestHeaders
      (attempt ES5 None (Samples.configuration true None) Samples.rotating
         Samples.plain "/users" "1" "k" [Success Samples.with_token] 0
         Samples.busy).1 in
  after !! "Authorization" = Some "Bearer new"
  ∧ after !! "Accept" = Some "application/json".
Proof.
  intros after. split.
  - apply (rotated_headers_merged ES5 None (Samples.configuration true None)
             Samples.rotating Samples.plain "/users" "1" "k" Samples.rotate
             Samples.with_token [] 0 Samples.busy "Authorization" eq_refl)
      with (m := {[ "Authorization" := "Bearer new" ]}); reflexivity.
  - etrans.
    + apply (rotated_headers_merged ES5 None (Samples.configuration true None)
               Samples.rotating Samples.plain "/users" "1" "k" Samples.rotate
               Samples.with_token [] 0 Samples.busy "Accept" eq_refl)
        with (m := {[ "Authorization" := "Bearer new" ]}); reflexivity.
    + reflexivity.
Defined.

(** ** The registry after a success *)

Lemma splice1_indexOf_snoc l x :
  x ∉ l → splice1 (indexOf (l ++ [x]) x) (l ++ [x]) = l.
Proof.
  induction l as [|y l IH]; intros Hx; simpl.
  - by rewrite bool_decide_eq_true_2.
  - apply not_elem_of_cons in Hx as [Hxy Hx].
    rewrite bool_decide_eq_false_2 by done.
    specialize (IH Hx). destruct (indexOf (l ++ [x]) x) as [i|] eqn:Hi; simpl in *.
    + by rewrite IH.
    + destruct (l ++ [x]) eqn:Hl; [by destruct l|]. by rewrite IH.
Qed.

(** The success path takes the attempt's handle off the registry,
    whatever the configuration. *)
Lemma successful_attempt_unregisters target id cfg ctl o url rid key r results n st :
  registry_wf st →
  pendingRequestCancelTokenSources
    (attempt target id cfg ctl o url rid key (Success r :: results) n st).1
  = pendingRequestCancelTokenSources st.
Proof.
  intros [_ Hlt]. rewrite attempt_eq. cbn zeta. cbn [fst].
  destruct (onResponse_frame id cfg ctl o rid key (start o url st).1
              (onFulfilled ctl o r) (start o url st).2) as (_ & -> & _).
  destruct (start_frame o url st) as (-> & -> & _).
  apply splice1_indexOf_snoc. intros Hin. specialize (Hlt _ Hin). lia.
Qed.

(** ** The failure handler *)

Lemma onRejected_flag_on target cfg ctl o key tok err n st :
  preProcessResponseErrorMessages cfg = true →
  onRejected target cfg ctl o key tok err n st
  = match requestWillRetry target ctl Uninitialised err n with
    | inl e => (st, Throws e)
    | inr willRetry =>
        let err := match processResponseError ctl with Some f => f err | None => err end in
        let st := emit (map (fun l => ErrorEvent l err) (error_listeners ctl)) st in
        let pending := pendingRequestCancelTokenSources st in
        let st := set_pending (splice1 (indexOf pending tok) pending) st in
        match errorMessage (default "operation" (label o)) err st with
        | inl e => (st, Throws e)
        | inr (message, st) =>
            if willRetry then (st, Retries)
            else (reject key (ErrorObject message) st, Rejects (ErrorObject message))
        end
    end.
Proof.
  intros H. unfold onRejected. rewrite H.
  destruct (requestWillRetry _ _ _ _ _) as [e|willRetry]; [done|]. cbn zeta.
  destruct (errorMessage _ _ _) as [e|[message st']]; [done|].
  by destruct willRetry.
Qed.

Lemma errorMessage_transports label err st :
  match errorMessage label err st with
  | inl _ => True
  | inr (_, st') =>
      transports (log st') = transports (log st)
      ∧ pendingRequestCancelTokenSources st' = pendingRequestCancelTokenSources st
  end.
Proof.
  unfold errorMessage.
  destruct (err_response err) as [response|]; [|done].
  destruct (JS.truthy _); [|done].
  destruct (serverSideMessage _) as [e|message]; [done|].
  destruct (includes _ _); [|done].
  simpl. by rewrite transports_app, transports_Cancel, Nat.add_0_r.
Qed.

(** The handler never invokes the transport itself. *)
Lemma onRejected_transports target cfg ctl o key tok err n st :
  transports (log (onRejected target cfg ctl o key tok err n st).1)
  = transports (log st).
Proof.
  destruct (preProcessResponseErrorMessages cfg) eqn:Hflag.
  - rewrite onRejected_flag_on by done.
    destruct (requestWillRetry _ _ _ _ _) as [e|willRetry]; [done|]. cbn zeta.
    match goal with
    | |- context [errorMessage ?l ?e ?s] =>
        pose proof (errorMessage_transports l e s) as Hmsg;
        destruct (errorMessage l e s) as [x|[message st']]
    end.
    + simpl. by rewrite transports_app, transports_ErrorEvent, Nat.add_0_r.
    + destruct Hmsg as [Hmsg _]. simpl in Hmsg.
      rewrite transports_app, transports_ErrorEvent, Nat.add_0_r in Hmsg.
      destruct willRetry; simpl; [done|].
      by destruct (reject_frame key (ErrorObject message) st') as (_ & _ & _ & -> & _).
  - rewrite onRejected_flag_off by done.
    destruct (requestWillRetry _ _ _ _ _) as [e|willRetry]; [done|]. cbn zeta.
    destruct willRetry; simpl.
    + by rewrite transports_app, transports_ErrorEvent, Nat.add_0_r.
    + match goal with
      | |- context [reject ?k ?e ?s] =>
          destruct (reject_frame k e s) as (_ & _ & _ & -> & _)
      end.
      simpl. by rewrite transports_app, transports_ErrorEvent, Nat.add_0_r.
Qed.

(** Every attempt invokes the transport, and no attempt resolves with
    the shape of a cache hit. *)
Lemma attempt_transports target id cfg ctl o url rid key results :
  ∀ n st,
    S (transports (log st))
    ≤ transports (log (attempt target id cfg ctl o url rid key results n st).1).
Proof.
  induction results as [|[r|err] results IH]; intros n st; rewrite attempt_eq; cbn zeta.
  - cbn [fst]. destruct (start_frame o url st) as (_ & _ & _ & _ & _ & -> & _). lia.
  - cbn [fst].
    destruct (onResponse_frame id cfg ctl o rid key (start o url st).1
                (onFulfilled ctl o r) (start o url st).2) as (_ & _ & ->).
    destruct (start_frame o url st) as (_ & _ & _ & _ & _ & -> & _). lia.
  - pose proof (onRejected_transports target cfg ctl o key (start o url st).1
                  err n (start o url st).2) as Hrej.
    destruct (start_frame o url st) as (_ & _ & _ & _ & _ & Hstart & _).
    destruct (onRejected _ _ _ _ _ _ _ _ _) as [st' [e| |r]]; simpl in *; try lia.
    specialize (IH (S n) st'). lia.
Qed.

Lemma attempt_not_cached target id cfg ctl o url rid key results :
  ∀ n st d,
    (attempt target id cfg ctl o url rid key results n st).2 ≠ Fulfilled (CachedData d).
Proof.
  induction results as [|[r|err] results IH]; intros n st d; rewrite attempt_eq; cbn zeta.
  - done.
  - done.
  - destruct (onRejected _ _ _ _ _ _ _ _ _) as [st' [e| |r]]; [done|apply IH|done].
Qed.

(** ** The cache *)

Lemma get_equivalent_verbs m :
  m = None ∨ m = Some "get" ∨ m = Some "GET" → get_equivalent m = true.
Proof. by intros [->|[->| ->]]. Qed.

(** What the callback does once the cache has answered with an
    entry. *)
Lemma callback_entry target id cfg ctl o url rid key results st c store entry :
  cacheId o = Some c → c ≠ EmptyString →
  cache cfg = Some store →
  get_equivalent (method o) = true →
  getCachedData store c rid = Some entry →
  callback target id cfg ctl o url rid key results st
  = if default false (isStale entry) then
      attempt target id cfg ctl o url rid key results 0
        (match getStaleWhileRevalidate o with
         | Some hook =>
             match hook (entry_data entry) with
             | Some thrown =>
                 emit [StaleWhileRevalidate (entry_data entry); ConsoleError thrown] st
             | None => emit [StaleWhileRevalidate (entry_data entry)] st
             end
         | None => st
         end)
    else (resolve key (CachedData (entry_data entry)) st,
          Fulfilled (CachedData (entry_data entry))).
Proof.
  intros Hc Hne Hstore Hget Hentry. unfold callback, caching.
  rewrite Hc, Hstore. destruct (String.eqb_spec c EmptyString); [done|].
  by rewrite Hget, Hentry.
Qed.

(** C4. A GET-equivalent request with a (non-empty) cacheId, a cache
    being configured, for which [getCachedData] returns an entry that
    is not stale: the callback resolves the group at once with the
    cached data, every caller waiting in the group receiving it, and
    the group is removed; whatever the transport would answer, it is
    not invoked, and no cancellation handle is created or registered. *)
Theorem fresh_cache_hit_settles_without_transport
    target id cfg ctl o url rid key results st c store entry group :
  method o = None ∨ method o = Some "get" ∨ method o = Some "GET" →
  cacheId o = Some c → c ≠ EmptyString →
  cache cfg = Some store →
  getCachedData store c rid = Some entry →
  isStale entry = None ∨ isStale entry = Some false →
  requestQueue st !! key = Some group → group ≠ [] →
  let run := callback target id cfg ctl o url rid key results st in
  run.2 = Fulfilled (CachedData (entry_data entry))
  ∧ log run.1
    = log st ++ map (fun r => Settle (Resolved (waiter r) (CachedData (entry_data entry))))
                  group
  ∧ requestQueue run.1 = delete key (requestQueue st)
  ∧ transports (log run.1) = transports (log st)
  ∧ pendingRequestCancelTokenSources run.1 = pendingRequestCancelTokenSources st
  ∧ sources_created run.1 = sources_created st.
Proof.
  intros Hm Hc Hne Hstore Hentry Hfresh Hq Hgroup run. unfold run.
  rewrite (callback_entry _ _ _ _ _ _ _ _ _ _ c store entry)
    by auto using get_equivalent_verbs.
  assert (default false (isStale entry) = false) as -> by by destruct Hfresh as [-> | ->].
  cbn [fst snd]. rewrite (resolve_group key _ st group Hq Hgroup). simpl.
  rewrite transports_app, transports_settled.
  repeat split; lia.
Qed.

Lemma fresh_cache_hit_settles_without_transport_witness :
  let run :=
    callback ES2015 None (Samples.configuration true (Some (Samples.store None)))
      Samples.no_hooks (Samples.cached "users" None) "/users" "1" "k"
      [Success (Samples.answer 200 Samples.user_list)] Samples.busy in
  run.2 = Fulfilled (CachedData (JS.Arr []))
  ∧ log run.1 = [Settle (Resolved 1 (CachedData (JS.Arr [])));
                 Settle (Resolved 2 (CachedData (JS.Arr [])))]
  ∧ transports (log run.1) = 0.
Proof.
  intros run.
  destruct (fresh_cache_hit_settles_without_transport ES2015 None
              (Samples.configuration true (Some (Samples.store None)))
              Samples.no_hooks (Samples.cached "users" None) "/users" "1" "k"
              [Success (Samples.answer 200 Samples.user_list)] Samples.busy
              "users" (Samples.store None)
              {| isStale := None; entry_data := JS.Arr [] |}
              [Samples.users 1; Samples.users 2])
    as (Hout & Hlog & _ & Htr & _); try reflexivity; try discriminate.
  - by right; right.
  - by left.
  - split; [exact Hout|]. split; [exact Hlog | exact Htr].
Defined.

(** ** One dispatch for a group, end to end *)

(** Two simultaneous [get('/users')] of an idle adapter: the first
    invokes the transport and stays in flight, the second joins its
    group and invokes nothing; when the transport answers, both callers
    are resolved with that one response, and group and handle are
    gone. *)
Example two_simultaneous_gets :
  let cfg := Samples.configuration true None in
  let get :=
    get Samples.textual_hash true Samples.no_addSearchParams ES2015 None cfg
      Samples.no_hooks in
  let first := get "/users" Samples.plain 1 1000%Z [] Samples.idle in
  let second := get "/users" Samples.plain 2 1000%Z [] first.1 in
  let url := "https://api.example.com/users" in
  let queued w :=
    {| config := {| RequestQueue.url := url; RequestQueue.method := Absent;
                    RequestQueue.data := NoData;
                    RequestQueue.getRequestController := Absent;
                    RequestQueue.rest := [] |};
       waiter := w |} in
  let key := requestId Samples.textual_hash true 1000%Z (queued 1) in
  let answer := Samples.answer 200 Samples.user_list in
  let settled :=
    resume ES2015 None cfg Samples.no_hooks Samples.plain url "1" key 0
      [Success answer] 0 second.1 in
  first.2 = InFlight ∧ second.2 = InFlight
  ∧ requestQueue second.1 = {[ key := [queued 1; queued 2] ]}
  ∧ log second.1 = [Transport url ∅ 0]
  ∧ log settled.1
    = [Transport url ∅ 0; Settle (Resolved 1 (Response answer));
       Settle (Resolved 2 (Response answer))]
  ∧ requestQueue settled.1 = ∅
  ∧ pendingRequestCancelTokenSources settled.1 = [].
Proof. repeat split; reflexivity. Qed.

(** ** Session expiry *)

(** An attempt registers a source the registry did not hold. *)
Lemma start_registers o url st :
  registry_wf st →
  registry_wf (start o url st).2
  ∧ (start o url st).1 ∈ pendingRequestCancelTokenSources (start o url st).2.
Proof.
  intros [Hnd Hlt]. unfold registry_wf.
  destruct (start_frame o url st) as (-> & -> & _ & _ & -> & _).
  split; [split|].
  - apply NoDup_app. split; [done|]. split; [|apply NoDup_singleton].
    intros h Hh ->%list_elem_of_singleton. specialize (Hlt _ Hh). lia.
  - intros h [Hh| ->%list_elem_of_singleton]%elem_of_app; [specialize (Hlt _ Hh)|]; lia.
  - apply elem_of_app. right. by apply list_elem_of_singleton.
Qed.

Lemma indexOf_None l x : indexOf l x = None ↔ x ∉ l.
Proof.
  induction l as [|y l IH]; simpl.
  - split; [intros _; apply not_elem_of_nil | done].
  - rewrite not_elem_of_cons. case_bool_decide as Hy.
    + split; [done | intros [Hne _]; by subst].
    + rewrite fmap_None, IH. naive_solver.
Qed.

(** [splice(indexOf(x), 1)] on a registry without repetitions that
    holds [x] leaves exactly the other handles. *)
Lemma splice1_indexOf_others l x h :
  NoDup l → x ∈ l →
  h ∈ splice1 (indexOf l x) l ↔ h ∈ l ∧ h ≠ x.
Proof.
  induction l as [|y l IH]; intros Hnd Hx.
  - by apply elem_of_nil in Hx.
  - apply NoDup_cons in Hnd as [Hy Hnd]. simpl. case_bool_decide as Hyx.
    + subst y. simpl. rewrite elem_of_cons. split; [|naive_solver].
      intros Hh. split; [by right|]. by intros ->.
    + apply elem_of_cons in Hx as [->|Hx]; [done|].
      destruct (indexOf l x) as [i|] eqn:Hi.
      * specialize (IH Hnd Hx). simpl in *. rewrite !elem_of_cons, IH.
        split; [intros [->|[? ?]]; split; auto; congruence | naive_solver].
      * by apply indexOf_None in Hi.
Qed.

Lemma cancelled_ErrorEvent ls err : cancelled (map (fun l => ErrorEvent l err) ls) = [].
Proof. by induction ls. Qed.

Lemma cancelled_settled {A} (f : A → Settlement Payload Rejection) (l : list A) :
  cancelled (map (fun r => Settle (f r)) l) = [].
Proof. by induction l. Qed.





End AdapterFacts.

(** * Further properties of the queue *)

Module QueueLaws.
Import RequestQueue.

Section Laws.
Variable hashIt : AxiosRequestConfig → option Waiter → Z.
Variable FormData_defined : bool.
Context {P E : Type}.

Local Abbreviation requestId := (requestId hashIt FormData_defined).
Local Abbreviation queueRequest := (queueRequest hashIt FormData_defined).
Local Abbreviation queueRequests := (queueRequests hashIt FormData_defined).

Lemma resolveRequest_after_settlement k (p : P)
    (q : gmap string (list QueuedRequestOptions)) :
  q !! k = None ∨ q !! k = Some [] →
  resolveRequest (E := E) k p q = (q, []).
Proof. intros [H|H]; unfold resolveRequest; by rewrite H. Qed.

Lemma rejectRequest_after_settlement k (e : E)
    (q : gmap string (list QueuedRequestOptions)) :
  q !! k = None ∨ q !! k = Some [] →
  rejectRequest (P := P) k e q = (q, []).
Proof. intros [H|H]; unfold rejectRequest; by rewrite H. Qed.

Lemma resolveRequest_leaves k (p : P) (q : gmap string (list QueuedRequestOptions)) :
  (resolveRequest (E := E) k p q).1 !! k = None
  ∨ (resolveRequest (E := E) k p q).1 !! k = Some [].
Proof.
  unfold resolveRequest. destruct (q !! k) as [[|r group]|] eqn:Hq; simpl.
  - by right.
  - left. apply lookup_delete_eq.
  - by left.
Qed.

Lemma rejectRequest_leaves k (e : E) (q : gmap string (list QueuedRequestOptions)) :
  (rejectRequest (P := P) k e q).1 !! k = None
  ∨ (rejectRequest (P := P) k e q).1 !! k = Some [].
Proof.
  unfold rejectRequest. destruct (q !! k) as [[|r group]|] eqn:Hq; simpl.
  - by right.
  - left. apply lookup_delete_eq.
  - by left.
Qed.

(** X1. Settling a group a second time, by either resolver and with any
    value, reaches no caller and leaves the queue as it is. *)
Theorem second_settlement_reaches_nobody k (p p' : P) (e e' : E)
    (q : gmap string (list QueuedRequestOptions)) :
  let resolved := (resolveRequest (E := E) k p q).1 in
  let rejected := (rejectRequest (P := P) k e q).1 in
  resolveRequest (E := E) k p' resolved = (resolved, [])
  ∧ rejectRequest (P := P) k e' resolved = (resolved, [])
  ∧ resolveRequest (E := E) k p' rejected = (rejected, [])
  ∧ rejectRequest (P := P) k e' rejected = (rejected, []).
Proof.
  intros resolved rejected. repeat split.
  - apply resolveRequest_after_settlement, resolveRequest_leaves.
  - apply rejectRequest_after_settlement, resolveRequest_leaves.
  - apply resolveRequest_after_settlement, rejectRequest_leaves.
  - apply rejectRequest_after_settlement, rejectRequest_leaves.
Qed.

(** X2. Enqueueing under one fingerprint and settling it leave every
    group under another fingerprint as it was, and a settlement reaches
    only callers of the group settled. *)
Theorem other_groups_untouched k k' now r (p : P) (e : E)
    (q : gmap string (list QueuedRequestOptions)) :
  k' ≠ k →
  (requestId now r = k → (queueRequest now r q).1 !! k' = q !! k')
  ∧ (resolveRequest (E := E) k p q).1 !! k' = q !! k'
  ∧ (rejectRequest (P := P) k e q).1 !! k' = q !! k'
  ∧ (∀ s, s ∈ (resolveRequest (E := E) k p q).2 →
          ∃ group r', q !! k = Some group ∧ r' ∈ group ∧ s = Resolved (waiter r') p)
  ∧ (∀ s, s ∈ (rejectRequest (P := P) k e q).2 →
          ∃ group r', q !! k = Some group ∧ r' ∈ group ∧ s = Rejected (waiter r') e).
Proof.
  intros Hne. split; [|split; [|split; [|split]]].
  - intros Hk. unfold RequestQueue.queueRequest. rewrite Hk.
    destruct (q !! k); simpl; by rewrite lookup_insert_ne.
  - unfold resolveRequest. destruct (q !! k) as [group|]; [|done].
    case_bool_decide; [|done]. simpl. by apply lookup_delete_ne.
  - unfold rejectRequest. destruct (q !! k) as [group|]; [|done].
    case_bool_decide; [|done]. simpl. by apply lookup_delete_ne.
  - intros s. unfold resolveRequest. destruct (q !! k) as [group|]; simpl.
    + case_bool_decide; simpl; [|by intros ?%elem_of_nil].
      intros (r' & -> & Hr')%list_elem_of_fmap. by exists group, r'.
    + by intros ?%elem_of_nil.
  - intros s. unfold rejectRequest. destruct (q !! k) as [group|]; simpl.
    + case_bool_decide; simpl; [|by intros ?%elem_of_nil].
      intros (r' & -> & Hr')%list_elem_of_fmap. by exists group, r'.
    + by intros ?%elem_of_nil.
Qed.

(** X3. Once a pending group has been settled, the next call with its
    fingerprint starts a group of its own and [callback] is invoked for
    it. *)
Theorem call_after_settlement_dispatches_again now r group (p : P) (e : E)
    (q : gmap string (list QueuedRequestOptions)) :
  q !! requestId now r = Some group → group ≠ [] →
  let k := requestId now r in
  queueRequest now r (resolveRequest (E := E) k p q).1
  = (<[k := [r]]> (delete k q), Some k)
  ∧ queueRequest now r (rejectRequest (P := P) k e q).1
    = (<[k := [r]]> (delete k q), Some k).
Proof.
  intros Hq Hne k. unfold k.
  rewrite (QueueFacts.resolveRequest_group (E := E) _ p group q Hq Hne).
  rewrite (QueueFacts.rejectRequest_group (P := P) _ e group q Hq Hne).
  cbn [fst].
  split; apply QueueFacts.queueRequest_new, lookup_delete_eq.
Qed.

Local Abbreviation joined := (Surface.joined hashIt FormData_defined).

Lemma queueRequests_cons now r calls (q : gmap string (list QueuedRequestOptions)) :
  (queueRequests ((now, r) :: calls) q).1
  = (queueRequests calls (queueRequest now r q).1).1
  ∧ (queueRequests ((now, r) :: calls) q).2
    = match (queueRequest now r q).2 with
      | Some id => id :: (queueRequests calls (queueRequest now r q).1).2
      | None => (queueRequests calls (queueRequest now r q).1).2
      end.
Proof.
  simpl. destruct (queueRequest now r q) as [q1 invoked]. cbn [fst snd].
  destruct (queueRequests calls q1) as [q2 more]. by destruct invoked.
Qed.

Lemma joined_cons k now r calls :
  joined k ((now, r) :: calls)
  = if decide (requestId now r = k) then r :: joined k calls else joined k calls.
Proof.
  unfold Surface.joined. rewrite filter_cons. simpl. by case_decide.
Qed.

(** X4. After a burst of calls of any fingerprints, in any order, the
    group of a fingerprint is what it was followed by the calls of the
    burst that have this fingerprint, in the order they were made; no
    caller is lost, moved to another group or entered twice. *)
Theorem burst_groups_callers_in_order
    (calls : list (Z * QueuedRequestOptions)) (k : string) :
  ∀ q : gmap string (list QueuedRequestOptions),
    (queueRequests calls q).1 !! k
    = match q !! k, joined k calls with
      | None, [] => None
      | None, callers => Some callers
      | Some group, callers => Some (group ++ callers)
      end.
Proof.
  induction calls as [|[now r] calls IH]; intros q.
  - simpl. destruct (q !! k); by rewrite ?app_nil_r.
  - destruct (queueRequests_cons now r calls q) as [-> _].
    rewrite IH, joined_cons. unfold RequestQueue.queueRequest.
    case_decide as Hk.
    + rewrite Hk. destruct (q !! k) as [group|] eqn:Hq; simpl;
        rewrite lookup_insert_eq; [by rewrite <- app_assoc | done].
    + destruct (q !! requestId now r); simpl; by rewrite lookup_insert_ne.
Qed.

(** X5. In a burst of calls of any fingerprints, [callback] is invoked
    for a fingerprint if and only if no group was pending for it and
    some call of the burst has it, and then once only. *)
Theorem burst_dispatches_once_per_fingerprint
    (calls : list (Z * QueuedRequestOptions)) :
  ∀ q : gmap string (list QueuedRequestOptions),
    NoDup (queueRequests calls q).2
    ∧ ∀ k, k ∈ (queueRequests calls q).2 ↔ q !! k = None ∧ joined k calls ≠ [].
Proof.
  induction calls as [|[now r] calls IH]; intros q.
  - simpl. split; [apply NoDup_nil_2|]. intros k. split.
    + by intros ?%elem_of_nil.
    + by intros [_ ?].
  - destruct (queueRequests_cons now r calls q) as [_ ->].
    unfold RequestQueue.queueRequest.
    destruct (q !! requestId now r) as [group|] eqn:Hq; simpl.
    + destruct (IH (<[requestId now r := group ++ [r]]> q)) as [Hnd Hin].
      split; [done|]. intros k. rewrite Hin, joined_cons. case_decide as Hk.
      * subst k. rewrite lookup_insert_eq, Hq. naive_solver.
      * by rewrite lookup_insert_ne.
    + destruct (IH (<[requestId now r := [r]]> q)) as [Hnd Hin].
      split.
      * apply NoDup_cons. split; [|done].
        rewrite Hin, lookup_insert_eq. naive_solver.
      * intros k. rewrite elem_of_cons, Hin, joined_cons. case_decide as Hk.
        -- subst k. rewrite lookup_insert_eq, Hq. naive_solver.
        -- rewrite lookup_insert_ne by done. naive_solver.
Qed.

End Laws.

Lemma burst_dispatches_once_per_fingerprint_witness :
  let calls :=
    [(1000%Z, Samples.users 1); (1000%Z, Samples.upload 2); (1001%Z, Samples.users 3)] in
  requestId Samples.textual_hash true 1000%Z (Samples.users 1)
  ∈ (queueRequests Samples.textual_hash true calls ∅).2
  ∧ length (queueRequests Samples.textual_hash true calls ∅).2 = 2.
Proof.
  intros calls.
  destruct (burst_dispatches_once_per_fingerprint Samples.textual_hash true calls ∅)
    as [_ Hin].
  split; [|reflexivity]. apply Hin. split; [reflexivity|discriminate].
Defined.

Lemma other_groups_untouched_witness :
  let q : gmap string (list QueuedRequestOptions) :=
    {[ "a" := [Samples.users 1]; "b" := [Samples.upload 2] ]} in
  (resolveRequest (E := Adapter.Rejection) "a" (Adapter.CachedData JS.Null) q).1 !! "b"
  = Some [Samples.upload 2]
  ∧ (rejectRequest (P := Adapter.Payload) "a" (Adapter.ErrorObject "x") q).1 !! "b"
    = Some [Samples.upload 2].
Proof.
  intros q.
  destruct (other_groups_untouched Samples.textual_hash true
              (P := Adapter.Payload) (E := Adapter.Rejection)
              "a" "b" 0%Z (Samples.users 3) (Adapter.CachedData JS.Null)
              (Adapter.ErrorObject "x") q)
    as (_ & Hres & Hrej & _); [discriminate|].
  split; [by rewrite Hres | by rewrite Hrej].
Defined.

Lemma call_after_settlement_dispatches_again_witness :
  let r := Samples.users 3 in
  let k := requestId Samples.textual_hash true 5%Z r in
  let q : gmap string (list QueuedRequestOptions) :=
    {[ k := [Samples.users 1; Samples.users 2] ]} in
  (queueRequest Samples.textual_hash true 5%Z r
     (resolveRequest (E := Adapter.Rejection) k (Adapter.CachedData JS.Null) q).1).2
  = Some k.
Proof.
  intros r k q.
  destruct (call_after_settlement_dispatches_again Samples.textual_hash true
              (P := Adapter.Payload) (E := Adapter.Rejection)
              5%Z r [Samples.users 1; Samples.users 2]
              (Adapter.CachedData JS.Null) (Adapter.ErrorObject "x") q)
    as [Hres _]; [apply lookup_singleton_eq | discriminate |].
  fold k in Hres. by rewrite Hres.
Defined.

End QueueLaws.

(** * Further properties of the request pipeline *)

Module PipelineLaws.
Import RequestQueue Adapter Surface.

(** ** Settlements in the log *)

Lemma settlements_app l1 l2 : settlements (l1 ++ l2) = settlements l1 ++ settlements l2.
Proof. apply omap_app. Qed.

Lemma settlements_settled {A} (f : A → Settlement Payload Rejection) (l : list A) :
  settlements (map (fun r => Settle (f r)) l) = map f l.
Proof. induction l as [|x l IH]; [done|]. unfold settlements. simpl. f_equal. exact IH. Qed.

Lemma settlements_Cancel ts : settlements (map Cancel ts) = [].
Proof. by induction ts. Qed.

Lemma settlements_ErrorEvent ls err :
  settlements (map (fun l => ErrorEvent l err) ls) = [].
Proof. by induction ls. Qed.

Lemma resolve_settles key p st group :
  requestQueue st !! key = Some group → group ≠ [] →
  settlements (log (resolve key p st))
  = settlements (log st) ++ map (fun r => Resolved (waiter r) p) group
  ∧ requestQueue (resolve key p st) = delete key (requestQueue st).
Proof.
  intros Hq Hne. rewrite (AdapterFacts.resolve_group key p st group Hq Hne). simpl.
  by rewrite settlements_app, settlements_settled.
Qed.

Lemma reject_settles key e st group :
  requestQueue st !! key = Some group → group ≠ [] →
  settlements (log (reject key e st))
  = settlements (log st) ++ map (fun r => Rejected (waiter r) e) group
  ∧ requestQueue (reject key e st) = delete key (requestQueue st).
Proof.
  intros Hq Hne. rewrite (AdapterFacts.reject_group key e st group Hq Hne). simpl.
  by rewrite settlements_app, settlements_settled.
Qed.

(** What message extraction does to the state: nothing, or the cascade
    on a session-expiry phrase. *)
Lemma errorMessage_state label err st :
  match errorMessage label err st with
  | inl _ => extractable err = false
  | inr (m, st') =>
      extractable err = true
      ∧ (st' = st
         ∨ st' = cancelPendingRequests st ∧ m ∈ EXPIRED_SESSION_ERROR_MESSAGES)
  end.
Proof.
  unfold errorMessage, extractable.
  destruct (err_response err) as [response|]; [|by auto].
  destruct (JS.truthy _); [|by auto].
  destruct (serverSideMessage _) as [e|message]; [done|].
  unfold includes. case_bool_decide; auto.
Qed.

(** ** What one pass of the failure handler changes *)

Ltac reject_effects key e S group Hq Hne :=
  destruct (AdapterFacts.reject_frame key e S) as (-> & -> & -> & _ & _);
  split; [done|]; split; [done|]; split; [simpl; auto|];
  intros group Hq Hne;
  destruct (reject_settles key e S group Hq Hne) as [-> ->];
  simpl; by rewrite ?settlements_app, ?settlements_ErrorEvent, ?settlements_Cancel,
                    ?app_nil_r.

Ltac retry_effects :=
  simpl; split; [done|]; split; [done|]; split; [auto|];
  intros group Hq Hne;
  by rewrite ?settlements_app, ?settlements_ErrorEvent, ?settlements_Cancel,
             ?app_nil_r.

Lemma onRejected_effects target cfg ctl o key tok err n st :
  let run := onRejected target cfg ctl o key tok err n st in
  sources_created run.1 = sources_created st
  ∧ defaultRequestHeaders run.1 = defaultRequestHeaders st
  ∧ (pendingRequestCancelTokenSources run.1 = pendingRequestCancelTokenSources st
     ∨ pendingRequestCancelTokenSources run.1
       = splice1 (indexOf (pendingRequestCancelTokenSources st) tok)
           (pendingRequestCancelTokenSources st))
  ∧ ∀ group, requestQueue st !! key = Some group → group ≠ [] →
      match run.2 with
      | Rejects e =>
          settlements (log run.1)
          = settlements (log st) ++ map (fun r => Rejected (waiter r) e) group
          ∧ requestQueue run.1 = delete key (requestQueue st)
      | _ =>
          settlements (log run.1) = settlements (log st)
          ∧ requestQueue run.1 = requestQueue st
      end.
Proof.
  cbn zeta. destruct (preProcessResponseErrorMessages cfg) eqn:Hflag.
  - rewrite AdapterFacts.onRejected_flag_on by done.
    destruct (requestWillRetry _ _ _ _ _) as [e|willRetry]; [retry_effects|]. cbn zeta.
    match goal with
    | |- context [errorMessage ?l ?e ?s] =>
        pose proof (errorMessage_state l e s) as Hmsg;
        destruct (errorMessage l e s) as [x|[message st']]
    end.
    + retry_effects.
    + destruct Hmsg as [_ [-> | [-> _]]]; destruct willRetry; cbn [fst snd].
      * retry_effects.
      * match goal with
        | |- context [reject ?k ?e ?S] => reject_effects k e S group Hq Hne
        end.
      * retry_effects.
      * match goal with
        | |- context [reject ?k ?e ?S] => reject_effects k e S group Hq Hne
        end.
  - rewrite AdapterFacts.onRejected_flag_off by done.
    destruct (requestWillRetry _ _ _ _ _) as [e|willRetry]; [retry_effects|]. cbn zeta.
    destruct willRetry; cbn [fst snd].
    + retry_effects.
    + match goal with
      | |- context [reject ?k ?e ?S] => reject_effects k e S group Hq Hne
      end.
Qed.

Lemma onResponse_effects id cfg ctl o rid key tok r st :
  sources_created (onResponse id cfg ctl o rid key tok r st) = sources_created st
  ∧ ∀ group, requestQueue st !! key = Some group → group ≠ [] →
      settlements (log (onResponse id cfg ctl o rid key tok r st))
      = settlements (log st) ++ map (fun q => Resolved (waiter q) (Response r)) group
      ∧ requestQueue (onResponse id cfg ctl o rid key tok r st)
        = delete key (requestQueue st).
Proof.
  unfold onResponse. cbn zeta.
  match goal with
  | |- context [resolve ?k ?p ?S] =>
      destruct (AdapterFacts.resolve_frame k p S) as (_ & _ & -> & _ & _);
      split;
      [ by destruct (onServerSuccess o), (caching cfg o) as [[? ?]|], (rotateHeaders ctl)
      | intros group Hq Hne;
        assert (HqS : requestQueue S !! key = Some group)
          by (by destruct (onServerSuccess o), (caching cfg o) as [[? ?]|],
                   (rotateHeaders ctl));
        destruct (resolve_settles k p S group HqS Hne) as [-> ->] ]
  end.
  destruct (onServerSuccess o), (caching cfg o) as [[? ?]|], (rotateHeaders ctl);
    simpl; by rewrite ?settlements_app, ?app_nil_r.
Qed.

Lemma start_effects o url st :
  settlements (log (start o url st).2) = settlements (log st).
Proof.
  unfold start. simpl. destruct (getRequestController o); simpl;
    by rewrite !settlements_app, ?app_nil_r.
Qed.

(** ** Handles and transport calls *)

Lemma resume_eq target id cfg ctl o url rid key tok results n st :
  resume target id cfg ctl o url rid key tok results n st
  = match results with
    | [] => (st, InFlight)
    | Success r :: _ =>
        (onResponse id cfg ctl o rid key tok (onFulfilled ctl o r) st,
         Fulfilled (Response (onFulfilled ctl o r)))
    | Failure err :: results' =>
        match onRejected target cfg ctl o key tok err n st with
        | (st', Retries) =>
            resume target id cfg ctl o url rid key (start o url st').1 results' (S n)
              (start o url st').2
        | (st', Throws e) => (st', Unhandled e)
        | (st', Rejects r) => (st', Failed r)
        end
    end.
Proof.
  destruct results as [|[r|err] results]; try done.
  all: cbn [resume]; destruct (onRejected _ _ _ _ _ _ _ _ _) as [st' [e| |r]];
    try done; by destruct (start o url st').
Qed.

Lemma resume_sources target id cfg ctl o url rid key results :
  ∀ tok n st,
    let run := resume target id cfg ctl o url rid key tok results n st in
    sources_created run.1 + transports (log st)
    = sources_created st + transports (log run.1)
    ∧ sources_created st ≤ sources_created run.1.
Proof.
  induction results as [|[r|err] results IH]; intros tok n st; cbn zeta;
    rewrite resume_eq; cbn [fst snd].
  - done.
  - destruct (onResponse_effects id cfg ctl o rid key tok (onFulfilled ctl o r) st)
      as [-> _].
    destruct (AdapterFacts.onResponse_frame id cfg ctl o rid key tok
                (onFulfilled ctl o r) st) as (_ & _ & ->). done.
  - pose proof (onRejected_effects target cfg ctl o key tok err n st) as (Hs & _).
    pose proof (AdapterFacts.onRejected_transports target cfg ctl o key tok err n st) as Ht.
    destruct (onRejected _ _ _ _ _ _ _ _ _) as [st' [e| |rej]]; cbn [fst snd] in *;
      try lia.
    pose proof (AdapterFacts.start_frame o url st') as (_ & _ & _ & _ & Hs' & Ht' & _).
    specialize (IH (start o url st').1 (S n) (start o url st').2). cbn zeta in IH. lia.
Qed.

(** X9. In a run of any number of attempts, as many cancellation
    sources are created as transport calls are made: one per attempt,
    retries included. *)
Theorem one_source_per_transport_call target id cfg ctl o url rid key results n st :
  let run := attempt target id cfg ctl o url rid key results n st in
  sources_created run.1 - sources_created st
  = transports (log run.1) - transports (log st)
  ∧ sources_created st < sources_created run.1.
Proof.
  cbn zeta. unfold attempt.
  pose proof (AdapterFacts.start_frame o url st) as (_ & _ & _ & _ & Hs & Ht & _).
  destruct (start o url st) as [tok st1]. cbn [fst snd] in *.
  pose proof (resume_sources target id cfg ctl o url rid key results tok n st1) as H.
  cbn zeta in H. lia.
Qed.

(** ** One settlement for a group *)

Lemma resume_settles target id cfg ctl o url rid key results :
  ∀ tok n st group,
    requestQueue st !! key = Some group → group ≠ [] →
    let run := resume target id cfg ctl o url rid key tok results n st in
    match run.2 with
    | Fulfilled p =>
        settlements (log run.1)
        = settlements (log st) ++ map (fun r => Resolved (waiter r) p) group
        ∧ requestQueue run.1 = delete key (requestQueue st)
    | Failed e =>
        settlements (log run.1)
        = settlements (log st) ++ map (fun r => Rejected (waiter r) e) group
        ∧ requestQueue run.1 = delete key (requestQueue st)
    | InFlight | Unhandled _ =>
        settlements (log run.1) = settlements (log st)
        ∧ requestQueue run.1 = requestQueue st
    end.
Proof.
  induction results as [|[r|err] results IH]; intros tok n st group Hq Hne; cbn zeta;
    rewrite resume_eq.
  - done.
  - cbn [fst snd].
    by destruct (onResponse_effects id cfg ctl o rid key tok (onFulfilled ctl o r) st)
      as [_ H]; apply H.
  - pose proof (onRejected_effects target cfg ctl o key tok err n st) as (_ & _ & _ & H).
    specialize (H group Hq Hne).
    destruct (onRejected _ _ _ _ _ _ _ _ _) as [st' [e| |rej]]; cbn [fst snd] in *;
      try done.
    destruct H as [Hs Hq'].
    pose proof (AdapterFacts.start_frame o url st') as (_ & _ & _ & Hq'' & _).
    pose proof (start_effects o url st') as Hs''.
    specialize (IH (start o url st').1 (S n) (start o url st').2 group).
    cbn zeta in IH. rewrite Hq'', Hq', Hs'', Hs in IH. by apply IH.
Qed.

(** X7. A run of the inner [fetchData] on a pending group settles it at
    most once: if the run ends resolved, every caller of the group has
    received that payload, in the order they were enqueued, and the
    group is gone; if it ends rejected, likewise with that error; if the
    transport has not answered yet, or the failure handler has thrown,
    no caller has been settled and the group is still pending. Retries
    in between settle nobody. *)
Theorem run_settles_group_at_most_once
    target id cfg ctl o url rid key results n st group :
  requestQueue st !! key = Some group → group ≠ [] →
  let run := attempt target id cfg ctl o url rid key results n st in
  match run.2 with
  | Fulfilled p =>
      settlements (log run.1)
      = settlements (log st) ++ map (fun r => Resolved (waiter r) p) group
      ∧ requestQueue run.1 = delete key (requestQueue st)
  | Failed e =>
      settlements (log run.1)
      = settlements (log st) ++ map (fun r => Rejected (waiter r) e) group
      ∧ requestQueue run.1 = delete key (requestQueue st)
  | InFlight | Unhandled _ =>
      settlements (log run.1) = settlements (log st)
      ∧ requestQueue run.1 = requestQueue st
  end.
Proof.
  intros Hq Hne. cbn zeta. unfold attempt.
  pose proof (AdapterFacts.start_frame o url st) as (_ & _ & _ & Hq' & _).
  pose proof (start_effects o url st) as Hs'.
  pose proof (resume_settles target id cfg ctl o url rid key results
                (start o url st).1 n (start o url st).2 group) as H.
  destruct (start o url st) as [tok st1]. cbn [fst snd] in *. cbn zeta in H.
  rewrite Hq', Hs' in H. by apply H.
Qed.

Lemma run_settles_group_at_most_once_witness :
  let run results :=
    attempt ES5 None (Samples.configuration true None) Samples.retrying
      Samples.plain "/users" "1" "k" results 0 Samples.busy in
  settlements (log (run [Failure Samples.session_expired;
                         Failure (Samples.failure 404 JS.Null)]).1)
  = [Rejected 1 (ErrorObject "Error: 'operation' failed. Something went wrong");
     Rejected 2 (ErrorObject "Error: 'operation' failed. Something went wrong")]
  ∧ settlements (log (run [Failure Samples.session_expired]).1) = [].
Proof.
  intros run. split.
  - pose proof (run_settles_group_at_most_once ES5 None
                  (Samples.configuration true None) Samples.retrying Samples.plain
                  "/users" "1" "k"
                  [Failure Samples.session_expired; Failure (Samples.failure 404 JS.Null)]
                  0 Samples.busy [Samples.users 1; Samples.users 2] eq_refl) as H.
    cbn zeta in H.
    assert (Hout : (run [Failure Samples.session_expired;
                         Failure (Samples.failure 404 JS.Null)]).2
                   = Failed (ErrorObject "Error: 'operation' failed. Something went wrong"))
      by reflexivity.
    unfold run in Hout. rewrite Hout in H. by apply H.
  - pose proof (run_settles_group_at_most_once ES5 None
                  (Samples.configuration true None) Samples.retrying Samples.plain
                  "/users" "1" "k" [Failure Samples.session_expired]
                  0 Samples.busy [Samples.users 1; Samples.users 2] eq_refl) as H.
    cbn zeta in H.
    assert (Hout : (run [Failure Samples.session_expired]).2 = InFlight) by reflexivity.
    unfold run in Hout. rewrite Hout in H. by apply H.
Defined.

(** ** The registry across a run *)

Lemma removelast_sublist (l : list CancelTokenSource) : removelast l `sublist_of` l.
Proof.
  induction l as [|x [|y l] IH]; simpl.
  - done.
  - apply sublist_nil_l.
  - by apply sublist_skip.
Qed.

Lemma splice1_sublist i (l : list CancelTokenSource) : splice1 i l `sublist_of` l.
Proof. destruct i; [apply sublist_delete | apply removelast_sublist]. Qed.

(** Taking the attempt's own handle off a well-formed registry that
    holds it. *)
Lemma splice_own st tok (l : list CancelTokenSource) :
  registry_wf st → tok ∈ pendingRequestCancelTokenSources st →
  l = pendingRequestCancelTokenSources st
  ∨ l = splice1 (indexOf (pendingRequestCancelTokenSources st) tok)
          (pendingRequestCancelTokenSources st) →
  NoDup l
  ∧ (∀ h, h ∈ l → h ∈ pendingRequestCancelTokenSources st)
  ∧ (∀ h, h ∈ pendingRequestCancelTokenSources st → h ≠ tok → h ∈ l).
Proof.
  intros [Hnd Hlt] Htok [-> | ->]; [by auto|].
  split; [eapply sublist_NoDup; [done|apply splice1_sublist]|].
  split; intros h.
  - intros Hh. eapply elem_of_sublist; [done|apply splice1_sublist].
  - intros Hh Hne. by apply AdapterFacts.splice1_indexOf_others.
Qed.

Lemma resume_registry target id cfg ctl o url rid key results :
  ∀ tok n st,
    registry_wf st → tok ∈ pendingRequestCancelTokenSources st →
    let run := resume target id cfg ctl o url rid key tok results n st in
    registry_wf run.1
    ∧ (∀ h, h ∈ pendingRequestCancelTokenSources st → h ≠ tok →
            h ∈ pendingRequestCancelTokenSources run.1)
    ∧ (∀ h, h ∈ pendingRequestCancelTokenSources run.1 →
            h ∈ pendingRequestCancelTokenSources st ∨ sources_created st ≤ h).
Proof.
  induction results as [|[r|err] results IH]; intros tok n st Hwf Htok; cbn zeta;
    rewrite resume_eq; cbn [fst snd].
  - by auto.
  - destruct (onResponse_effects id cfg ctl o rid key tok (onFulfilled ctl o r) st)
      as [Hs _].
    destruct (AdapterFacts.onResponse_frame id cfg ctl o rid key tok
                (onFulfilled ctl o r) st) as (_ & Hp & _).
    destruct (splice_own st tok _ Hwf Htok (or_intror Hp)) as (Hnd & Hsub & Hkeep).
    split; [split; [done|]|by auto].
    intros h Hh. rewrite Hs. apply Hwf. by apply Hsub.
  - pose proof (onRejected_effects target cfg ctl o key tok err n st)
      as (Hs & _ & Hp & _).
    assert (Hown := splice_own st tok
                      (pendingRequestCancelTokenSources
                         (onRejected target cfg ctl o key tok err n st).1) Hwf Htok).
    destruct Hown as (Hnd & Hsub & Hkeep); [destruct Hp; auto|].
    assert (Hwf' : registry_wf (onRejected target cfg ctl o key tok err n st).1).
    { split; [done|]. intros h Hh. rewrite Hs. apply Hwf. by apply Hsub. }
    destruct (onRejected _ _ _ _ _ _ _ _ _) as [st' [e| |rej]]; cbn [fst snd] in *;
      try by auto.
    destruct (AdapterFacts.start_registers o url st' Hwf') as [Hwf'' Htok'].
    pose proof (AdapterFacts.start_frame o url st') as (Htok'' & Hp'' & _ & _ & Hs'' & _).
    destruct (IH (start o url st').1 (S n) (start o url st').2 Hwf'' Htok')
      as (Hwf3 & Hkeep3 & Hnew3).
    split; [done|]. split.
    + intros h Hh Hne. apply Hkeep3.
      * rewrite Hp''. apply elem_of_app. left. by apply Hkeep.
      * rewrite Htok'', Hs. destruct Hwf as [_ Hlt]. specialize (Hlt _ Hh). lia.
    + intros h Hh. destruct (Hnew3 h Hh) as [Hin|Hge].
      * rewrite Hp'' in Hin. apply elem_of_app in Hin as [Hin|Hin%list_elem_of_singleton].
        -- left. by apply Hsub.
        -- right. lia.
      * right. lia.
Qed.

(** X8. A run of any number of attempts on a well-formed registry
    leaves it well formed; it never removes a handle that was
    registered before the run started (the [splice] at index -1, which
    would take the last handle off, never happens); and every handle
    the run leaves behind is either one of those or one it created. *)
Theorem run_keeps_other_handles target id cfg ctl o url rid key results n st :
  registry_wf st →
  let run := attempt target id cfg ctl o url rid key results n st in
  registry_wf run.1
  ∧ (∀ h, h ∈ pendingRequestCancelTokenSources st →
          h ∈ pendingRequestCancelTokenSources run.1)
  ∧ (∀ h, h ∈ pendingRequestCancelTokenSources run.1 →
          h ∈ pendingRequestCancelTokenSources st ∨ sources_created st ≤ h).
Proof.
  intros Hwf. cbn zeta. unfold attempt.
  destruct (AdapterFacts.start_registers o url st Hwf) as [Hwf' Htok].
  pose proof (AdapterFacts.start_frame o url st) as (Htok' & Hp & _ & _ & Hs & _).
  pose proof (resume_registry target id cfg ctl o url rid key results
                (start o url st).1 n (start o url st).2 Hwf' Htok) as H.
  destruct (start o url st) as [tok st1]. cbn [fst snd] in *. cbn zeta in H.
  destruct H as (Hwf1 & Hkeep & Hnew).
  split; [done|]. split.
  - intros h Hh. apply Hkeep.
    + rewrite Hp. apply elem_of_app. by left.
    + rewrite Htok'. destruct Hwf as [_ Hlt]. specialize (Hlt _ Hh). lia.
  - intros h Hh. destruct (Hnew h Hh) as [Hin|Hge]; [|right; lia].
    rewrite Hp in Hin. apply elem_of_app in Hin as [Hin|Hin%list_elem_of_singleton].
    + by left.
    + right. lia.
Qed.

Lemma run_keeps_other_handles_witness :
  let run :=
    attempt ES5 None (Samples.configuration false None) Samples.retrying
      Samples.plain "/users" "1" "k"
      [Failure (Samples.failure 503 JS.Null); Failure (Samples.failure 503 JS.Null)]
      0 Samples.busy in
  pendingRequestCancelTokenSources run.1 = [0; 1; 2; 3]
  ∧ 0 ∈ pendingRequestCancelTokenSources run.1
  ∧ 1 ∈ pendingRequestCancelTokenSources run.1.
Proof.
  intros run.
  assert (Hwf : registry_wf Samples.busy).
  { split; [repeat constructor; set_solver|]. intros h Hh. simpl in *.
    apply elem_of_cons in Hh as [->|Hh]; [lia|].
    apply list_elem_of_singleton in Hh as ->. lia. }
  destruct (run_keeps_other_handles ES5 None (Samples.configuration false None)
              Samples.retrying Samples.plain "/users" "1" "k"
              [Failure (Samples.failure 503 JS.Null); Failure (Samples.failure 503 JS.Null)]
              0 Samples.busy Hwf) as (_ & Hkeep & _).
  split; [reflexivity|]. split; apply Hkeep; set_solver.
Defined.

(** ** Retries the controller asks for *)

Lemma onRejected_forced target cfg ctl o key tok err n st f :
  shouldRetryRequest ctl = Some f → f err n = true →
  preProcessResponseErrorMessages cfg = false ∨ extractable (processed ctl err) = true →
  (onRejected target cfg ctl o key tok err n st).2 = Retries.
Proof.
  intros Hf Htrue Hok.
  destruct (preProcessResponseErrorMessages cfg) eqn:Hflag.
  - destruct Hok as [?|Hok]; [done|].
    rewrite AdapterFacts.onRejected_flag_on, AdapterFacts.requestWillRetry_uninitialised,
      Hf, Htrue by done. cbn zeta.
    match goal with
    | |- context [errorMessage ?l ?e ?s] =>
        pose proof (errorMessage_state l e s) as Hmsg;
        destruct (errorMessage l e s) as [x|[message st']]
    end.
    + unfold processed in Hok. congruence.
    + done.
  - by rewrite AdapterFacts.onRejected_flag_off, AdapterFacts.requestWillRetry_uninitialised,
      Hf, Htrue by done.
Qed.

Lemma resume_forced target id cfg ctl o url rid key f errs :
  shouldRetryRequest ctl = Some f → (∀ e k, f e k = true) →
  Forall (fun err => preProcessResponseErrorMessages cfg = false
                     ∨ extractable (processed ctl err) = true) errs →
  ∀ tok n st,
    let run := resume target id cfg ctl o url rid key tok (Failure <$> errs) n st in
    run.2 = InFlight
    ∧ transports (log run.1) = transports (log st) + length errs.
Proof.
  intros Hf Htrue. induction 1 as [|err errs Hok Hall IH]; intros tok n st; cbn zeta.
  - simpl. split; [done|lia].
  - rewrite fmap_cons, resume_eq.
    pose proof (onRejected_forced target cfg ctl o key tok err n st f Hf (Htrue _ _) Hok)
      as Hretry.
    pose proof (AdapterFacts.onRejected_transports target cfg ctl o key tok err n st) as Ht.
    destruct (onRejected _ _ _ _ _ _ _ _ _) as [st' out]. cbn [fst snd] in *. subst out.
    pose proof (AdapterFacts.start_frame o url st') as (_ & _ & _ & _ & _ & Ht' & _).
    destruct (IH (start o url st').1 (S n) (start o url st').2) as [-> ->].
    split; [done|]. cbn [length]. lia.
Qed.

(** X10. [MAX_REQUEST_RETRY_COUNT] does not bound the retries that
    [shouldRetryRequest] asks for: with a hook that always answers
    true, every failure (whose message extraction does not throw) is
    followed by another transport call, however many there have been,
    and the group is never rejected. *)
Theorem forced_retries_are_unbounded
    target id cfg ctl o url rid key f errs n st :
  shouldRetryRequest ctl = Some f → (∀ e k, f e k = true) →
  Forall (fun err => preProcessResponseErrorMessages cfg = false
                     ∨ extractable (processed ctl err) = true) errs →
  let run := attempt target id cfg ctl o url rid key (Failure <$> errs) n st in
  run.2 = InFlight
  ∧ transports (log run.1) = transports (log st) + S (length errs).
Proof.
  intros Hf Htrue Hall. cbn zeta. unfold attempt.
  pose proof (AdapterFacts.start_frame o url st) as (_ & _ & _ & _ & _ & Ht & _).
  pose proof (resume_forced target id cfg ctl o url rid key f errs Hf Htrue Hall
                (start o url st).1 n (start o url st).2) as H.
  destruct (start o url st) as [tok st1]. cbn [fst snd] in *. cbn zeta in H.
  destruct H as [-> ->]. split; [done|lia].
Qed.

Lemma forced_retries_are_unbounded_witness :
  let run :=
    attempt ES2015 None (Samples.configuration true None) insisting Samples.plain
      "/users" "1" "k" (Failure <$> replicate 5 (Samples.failure 503 JS.Null)) 0
      Samples.busy in
  run.2 = InFlight ∧ transports (log run.1) = 6.
Proof.
  intros run.
  apply (forced_retries_are_unbounded ES2015 None (Samples.configuration true None)
           insisting Samples.plain "/users" "1" "k" (fun _ _ => true)
           (replicate 5 (Samples.failure 503 JS.Null)) 0 Samples.busy).
  - reflexivity.
  - reflexivity.
  - repeat constructor; by right.
Defined.

(** ** Cancellation of other requests *)

Lemma errorMessage_no_expiry label err st :
  session_expiry err = false →
  match errorMessage label err st with
  | inl _ => True
  | inr (_, st') => st' = st
  end.
Proof.
  unfold session_expiry, errorMessage.
  destruct (err_response err) as [response|]; [|done].
  destruct (JS.truthy _); [|done].
  destruct (serverSideMessage _) as [e|message]; [done|]. simpl.
  by intros ->.
Qed.

Lemma onRejected_no_expiry target cfg ctl o key tok err n st :
  session_expiry (processed ctl err) = false →
  cancelled (log (onRejected target cfg ctl o key tok err n st).1) = cancelled (log st).
Proof.
  intros Hno. destruct (preProcessResponseErrorMessages cfg) eqn:Hflag.
  - rewrite AdapterFacts.onRejected_flag_on by done.
    destruct (requestWillRetry _ _ _ _ _) as [e|willRetry]; [done|]. cbn zeta.
    match goal with
    | |- context [errorMessage ?l ?e ?s] =>
        pose proof (errorMessage_no_expiry l e s Hno) as Hmsg;
        destruct (errorMessage l e s) as [x|[message st']]
    end.
    + simpl. by rewrite AdapterFacts.cancelled_app, AdapterFacts.cancelled_ErrorEvent,
        app_nil_r.
    + subst st'. destruct willRetry; cbn [fst snd].
      * simpl. by rewrite AdapterFacts.cancelled_app, AdapterFacts.cancelled_ErrorEvent,
          app_nil_r.
      * match goal with
        | |- context [reject ?k ?e ?S] =>
            destruct (AdapterFacts.reject_frame k e S) as (_ & _ & _ & _ & ->)
        end.
        simpl. by rewrite AdapterFacts.cancelled_app, AdapterFacts.cancelled_ErrorEvent,
          app_nil_r.
  - rewrite AdapterFacts.onRejected_flag_off by done.
    destruct (requestWillRetry _ _ _ _ _) as [e|willRetry]; [done|]. cbn zeta.
    destruct willRetry; cbn [fst snd].
    + simpl. by rewrite AdapterFacts.cancelled_app, AdapterFacts.cancelled_ErrorEvent,
        app_nil_r.
    + match goal with
      | |- context [reject ?k ?e ?S] =>
          destruct (AdapterFacts.reject_frame k e S) as (_ & _ & _ & _ & ->)
      end.
      simpl. by rewrite AdapterFacts.cancelled_app, AdapterFacts.cancelled_ErrorEvent,
        app_nil_r.
Qed.

Lemma onResponse_cancelled id cfg ctl o rid key tok r st :
  cancelled (log (onResponse id cfg ctl o rid key tok r st)) = cancelled (log st).
Proof.
  unfold onResponse. cbn zeta.
  match goal with
  | |- context [resolve ?k ?p ?S] =>
      destruct (AdapterFacts.resolve_frame k p S) as (_ & _ & _ & _ & ->)
  end.
  destruct (onServerSuccess o), (caching cfg o) as [[? ?]|], (rotateHeaders ctl);
    simpl; by rewrite ?AdapterFacts.cancelled_app, ?app_nil_r.
Qed.

Lemma resume_no_expiry target id cfg ctl o url rid key results :
  Forall (fun result =>
            match result with
            | Failure err => session_expiry (processed ctl err) = false
            | Success _ => True
            end) results →
  ∀ tok n st,
    cancelled (log (resume target id cfg ctl o url rid key tok results n st).1)
    = cancelled (log st).
Proof.
  induction 1 as [|[r|err] results Hno Hall IH]; intros tok n st; rewrite resume_eq;
    cbn [fst snd].
  - done.
  - apply onResponse_cancelled.
  - pose proof (onRejected_no_expiry target cfg ctl o key tok err n st Hno) as Hc.
    destruct (onRejected _ _ _ _ _ _ _ _ _) as [st' [e| |rej]]; cbn [fst snd] in *;
      try done.
    rewrite IH.
    by destruct (AdapterFacts.start_frame o url st') as (_ & _ & _ & _ & _ & _ & ->).
Qed.

(** X11. A run in which no failure carries a session-expiry phrase
    cancels no request: whatever the statuses, the hooks and the number
    of retries, [cancel()] is called on no handle of the registry. *)
Theorem only_session_expiry_cancels
    target id cfg ctl o url rid key results n st :
  Forall (fun result =>
            match result with
            | Failure err => session_expiry (processed ctl err) = false
            | Success _ => True
            end) results →
  cancelled (log (attempt target id cfg ctl o url rid key results n st).1)
  = cancelled (log st).
Proof.
  intros Hall. unfold attempt.
  pose proof (AdapterFacts.start_frame o url st) as (_ & _ & _ & _ & _ & _ & Hc).
  pose proof (resume_no_expiry target id cfg ctl o url rid key results Hall
                (start o url st).1 n (start o url st).2) as H.
  destruct (start o url st) as [tok st1]. cbn [fst snd] in *. by rewrite H.
Qed.

Lemma only_session_expiry_cancels_witness :
  cancelled
    (log (attempt ES5 None (Samples.configuration true None) Samples.retrying
            Samples.plain "/users" "1" "k"
            [Failure (Samples.failure 401 (JS.Obj [("message", JS.Str "Unauthorized")]));
             Failure (Samples.failure 500 JS.Null)] 0 Samples.busy).1)
  = [].
Proof.
  apply (only_session_expiry_cancels ES5 None (Samples.configuration true None)
           Samples.retrying Samples.plain "/users" "1" "k"
           [Failure (Samples.failure 401 (JS.Obj [("message", JS.Str "Unauthorized")]));
            Failure (Samples.failure 500 JS.Null)] 0 Samples.busy).
  repeat constructor.
Defined.

(** ** Error messages *)

Lemma get_None v k : JS.get v k = None ↔ JS.nullish v = true.
Proof. destruct v; simpl; split; congruence. Qed.

(** Induction on values, with the elements of an array at hand. *)
Lemma value_ind_nested (Q : JS.value → Prop) :
  Q JS.Undefined → Q JS.Null → (∀ b, Q (JS.Bool b)) → (∀ z, Q (JS.Num z)) →
  (∀ s, Q (JS.Str s)) →
  (∀ items, Forall Q items → Q (JS.Arr items)) →
  (∀ fields, Q (JS.Obj fields)) →
  ∀ v, Q v.
Proof.
  intros HU HN HB HZ HS HA HO. fix IH 1. intros [| |b|z|s|items|fields].
  - exact HU.
  - exact HN.
  - apply HB.
  - apply HZ.
  - apply HS.
  - apply HA. induction items as [|x items IHitems]; constructor;
      [apply IH | exact IHitems].
  - apply HO.
Qed.


Lemma join_values_spec sep l :
  Forall prints_or_throws l →
  match JS.join_values sep l with
  | inl e => e = JS.TypeError ∧ existsb JS.unprintable l = true
  | inr _ => existsb JS.unprintable l = false
  end.
Proof.
  unfold JS.join_values. induction 1 as [|x l Hx Hl IH]; [done|].
  cbn [JS.element_strings existsb]. unfold prints_or_throws in Hx.
  destruct (JS.nullish x) eqn:Hn.
  - assert (JS.unprintable x = false) as -> by (by destruct x).
    by destruct (JS.element_strings l).
  - destruct (JS.to_string x) as [e|text].
    + by destruct Hx as [-> ->].
    + rewrite Hx. by destruct (JS.element_strings l).
Qed.

Lemma to_string_spec v : prints_or_throws v.
Proof.
  induction v as [| | | | |items IH|fields] using value_ind_nested;
    try done; unfold prints_or_throws.
  - by destruct b.
  - change (JS.to_string (JS.Arr items)) with (JS.join_values "," items).
    change (JS.unprintable (JS.Arr items)) with (existsb JS.unprintable items).
    by apply join_values_spec.
  - simpl. by destruct (JS.has_own "toString" fields).
Qed.

Lemma join_values_throws sep l :
  match JS.join_values sep l with
  | inl e => e = JS.TypeError ∧ ∃ v, v ∈ l ∧ JS.unprintable v = true
  | inr _ => ∀ v, v ∈ l → JS.unprintable v = false
  end.
Proof.
  pose proof (join_values_spec sep l) as H.
  destruct (JS.join_values sep l) as [e|text].
  - destruct H as [-> H]; [apply Forall_forall; intros; apply to_string_spec|].
    split; [done|]. apply existsb_exists in H as (v & Hv & Hbad).
    exists v. split; [by apply list_elem_of_In|done].
  - intros v Hv. destruct (JS.unprintable v) eqn:Hbad; [|done].
    rewrite <- H; [|apply Forall_forall; intros; apply to_string_spec].
    symmetry. apply existsb_exists. exists v. split; [by apply list_elem_of_In|done].
Qed.

(** Strings join without an exception. *)
Lemma join_strings sep items :
  ∃ text, JS.join_values sep (filter (fun m => JS.is_string m = true) items) = inr text.
Proof.
  pose proof (join_values_throws sep (filter (fun m => JS.is_string m = true) items)) as H.
  destruct (JS.join_values _ _) as [e|text]; [|by eauto].
  destruct H as (_ & v & Hv & Hbad). apply list_elem_of_filter in Hv as [Hs _].
  by destruct v.
Qed.

Lemma messages_of_throws errs :
  (∃ e, messages_of errs = inl e) ↔ ∃ x, x ∈ errs ∧ JS.nullish x = true.
Proof.
  induction errs as [|x errs IH]; simpl.
  - split; [by intros [? ?] | by intros (? & ?%elem_of_nil & _)].
  - destruct (JS.get x "message") as [m|] eqn:Hget.
    + assert (Hx : JS.nullish x ≠ true)
        by (intros Hn; apply (get_None x "message") in Hn; congruence).
      destruct (messages_of errs) as [e|ms].
      * split; [|by eauto]. intros _. destruct IH as [IH _].
        destruct IH as (y & Hy & Hnull); [by eauto|]. exists y. split; [by right|done].
      * split; [by intros [? ?]|].
        intros (y & [->|Hy]%elem_of_cons & Hnull); [done|].
        destruct IH as [_ IH]. destruct IH as [? ?]; [by eauto|done].
    + split; [|by eauto]. intros _. exists x. split; [by left|]. by apply get_None in Hget.
Qed.

Lemma messages_of_TypeError errs e : messages_of errs = inl e → e = JS.TypeError.
Proof.
  revert e. induction errs as [|x errs IH]; intros e; simpl; [done|].
  destruct (JS.get x "message"); [|congruence].
  destruct (messages_of errs) as [e'|ms]; [|done]. intros [= <-]. by apply IH.
Qed.

(** What [map] collects is the [message] of each entry. *)
Lemma messages_of_each errs ms text :
  messages_of errs = inr ms →
  text ∈ ms ↔ ∃ x, x ∈ errs ∧ JS.get x "message" = Some text.
Proof.
  revert ms. induction errs as [|x errs IH]; intros ms; simpl.
  - intros [= <-]. split; [by intros ?%elem_of_nil | by intros (? & ?%elem_of_nil & _)].
  - destruct (JS.get x "message") as [m|] eqn:Hget; [|done].
    destruct (messages_of errs) as [e|ms']; [done|]. intros [= <-].
    rewrite elem_of_cons, (IH ms' eq_refl). split.
    + intros [->|(y & Hy & Hm)]; [exists x | exists y]; split; auto;
        apply elem_of_cons; auto.
    + intros (y & [->|Hy]%elem_of_cons & Hm); [left; congruence | right; by eauto].
Qed.

Lemma joined_errors_throws errs :
  ((∃ e, joined_errors errs = inl e)
   ↔ ∃ x, x ∈ errs
          ∧ (JS.nullish x = true
             ∨ ∃ text, JS.get x "message" = Some text ∧ JS.unprintable text = true))
  ∧ (∀ e, joined_errors errs = inl e → e = JS.TypeError).
Proof.
  unfold joined_errors.
  pose proof (messages_of_throws errs) as Hnull.
  pose proof (messages_of_TypeError errs) as Hty.
  pose proof (messages_of_each errs) as Heach.
  destruct (messages_of errs) as [x|ms].
  - split; [|by intros e [= <-]; apply Hty].
    split; [|by eauto]. intros _.
    destruct Hnull as [Hnull _]. destruct Hnull as (y & Hy & Hn); by eauto.
  - pose proof (join_values_throws newline ms) as Hjoin.
    destruct (JS.join_values newline ms) as [e|text].
    + destruct Hjoin as (-> & text & Htext & Hbad).
      split; [|by intros e [= <-]]. split; [|by eauto]. intros _.
      apply (Heach ms text eq_refl) in Htext as (y & Hy & Hm). by eauto 6.
    + split; [|done]. split; [by intros [? ?]|].
      intros (y & Hy & [Hn|(m & Hm & Hbad)]).
      * destruct Hnull as [_ Hnull]. destruct Hnull as [? ?]; by eauto.
      * rewrite Hjoin in Hbad; [done|]. apply (Heach ms m eq_refl). by eauto.
Qed.

Lemma serverSideMessage_eq data :
  serverSideMessage data
  = match JS.get data "message" with
    | None => inl JS.TypeError
    | Some (JS.Str s) => inr s
    | Some (JS.Arr items) =>
        JS.join_values newline (filter (fun m => JS.is_string m = true) items)
    | Some _ =>
        match JS.get data "errors" with
        | Some (JS.Arr []) => inr "Something went wrong"
        | Some (JS.Arr errs) => joined_errors errs
        | _ => inr "Something went wrong"
        end
    end.
Proof.
  unfold serverSideMessage, joined_errors.
  destruct (JS.get data "message") as [m|]; [|done].
  by destruct m; try done;
    destruct (JS.get data "errors") as [[| | | | |[|e errs]|]|].
Qed.

Lemma serverSideMessage_TypeError data e :
  serverSideMessage data = inl e → e = JS.TypeError.
Proof.
  rewrite serverSideMessage_eq.
  destruct (JS.get data "message") as [m|]; [|congruence].
  assert (Hother :
    match JS.get data "errors" with
    | Some (JS.Arr []) => inr "Something went wrong"
    | Some (JS.Arr errs) => joined_errors errs
    | _ => inr "Something went wrong"
    end = inl e → e = JS.TypeError).
  { destruct (JS.get data "errors") as [[| | | | |[|e0 errs]|]|]; try done.
    apply joined_errors_throws. }
  destruct m; try done.
  destruct (join_strings newline items) as [text ->]. done.
Qed.

(** X12. Message extraction on a truthy response body throws, and then
    a TypeError, exactly when [data.message] is neither a string nor an
    array and [data.errors] is an array with an entry that is
    [undefined] or [null], or whose [message] ToString throws on: an
    object with an own [toString] property, or an array that holds
    one. *)
Theorem extraction_throws_iff (data : JS.value) :
  JS.truthy data = true →
  ((∃ e, serverSideMessage data = inl e)
   ↔ ∃ m errs,
       JS.get data "message" = Some m
       ∧ match m with JS.Str _ | JS.Arr _ => False | _ => True end
       ∧ JS.get data "errors" = Some (JS.Arr errs)
       ∧ ∃ x, x ∈ errs
              ∧ (JS.nullish x = true
                 ∨ ∃ text, JS.get x "message" = Some text
                           ∧ JS.unprintable text = true))
  ∧ (∀ e, serverSideMessage data = inl e → e = JS.TypeError).
Proof.
  intros Htruthy. split; [|apply serverSideMessage_TypeError].
  assert (Hget : ∀ k, ∃ v, JS.get data k = Some v).
  { intros k. destruct (JS.get data k) eqn:H; [by eauto|].
    apply get_None in H. by destruct data. }
  rewrite serverSideMessage_eq.
  destruct (Hget "message") as [m ->]. destruct (Hget "errors") as [errors ->].
  assert (Hthrows :
    (∃ e, match errors with
          | JS.Arr [] => inr "Something went wrong"
          | JS.Arr errs => joined_errors errs
          | _ => inr "Something went wrong"
          end = inl e)
    ↔ ∃ errs, errors = JS.Arr errs
              ∧ ∃ x, x ∈ errs
                     ∧ (JS.nullish x = true
                        ∨ ∃ text, JS.get x "message" = Some text
                                  ∧ JS.unprintable text = true)).
  { destruct errors as [| | | | |errs|];
      try (split; [by intros [? ?] | by intros (? & ? & _)]).
    destruct errs as [|e0 errs].
    - split; [by intros [? ?]|]. by intros (? & [= <-] & ? & ?%elem_of_nil & _).
    - destruct (joined_errors_throws (e0 :: errs)) as [Hiff _]. rewrite Hiff.
      split; [by eauto|]. by intros (? & [= <-] & ?). }
  destruct m;
    try (rewrite Hthrows; split;
         [ intros (errs & -> & Hx); eexists _, errs; by eauto
         | intros (m' & errs & [= <-] & _ & [= ->] & Hx); by eauto ]).
  - split; [by intros [? ?]|]. by intros (m' & errs & [= <-] & [] & _).
  - destruct (join_strings newline items) as [text ->].
    split; [by intros [? ?]|]. by intros (m' & errs & [= <-] & [] & _).
Qed.

Lemma extraction_throws_iff_witness :
  serverSideMessage (JS.Obj [("errors", JS.Arr [JS.Obj [("message", JS.Obj [("toString", JS.Num 1)])]])])
  = inl JS.TypeError
  ∧ serverSideMessage (JS.Obj [("errors", JS.Arr [JS.Null])]) = inl JS.TypeError.
Proof.
  split.
  - destruct (extraction_throws_iff
                (JS.Obj [("errors",
                          JS.Arr [JS.Obj [("message", JS.Obj [("toString", JS.Num 1)])]])])
                eq_refl) as [[_ Hthrows] Hty].
    destruct Hthrows as [e He].
    + exists JS.Undefined, [JS.Obj [("message", JS.Obj [("toString", JS.Num 1)])]].
      repeat split. eexists. split; [by left|]. right. eexists. by split.
    + by rewrite He, (Hty e He).
  - destruct (extraction_throws_iff (JS.Obj [("errors", JS.Arr [JS.Null])]) eq_refl)
      as [[_ Hthrows] Hty].
    destruct Hthrows as [e He].
    + exists JS.Undefined, [JS.Null]. repeat split. exists JS.Null. split; [by left|by left].
    + by rewrite He, (Hty e He).
Defined.

(** X13. With [preProcessResponseErrorMessages] on, a failure on whose
    body message extraction throws (X12) ends the run in an uncaught
    TypeError, unless the retry decision has thrown before: the group is
    neither resolved nor rejected and stays pending, and what the
    transport would answer to later attempts is never asked for. *)
Theorem unextractable_failure_leaves_group_pending
    target id cfg ctl o url rid key err results n st willRetry :
  preProcessResponseErrorMessages cfg = true →
  requestWillRetry target ctl Uninitialised err n = inr willRetry →
  extractable (processed ctl err) = false →
  let run := attempt target id cfg ctl o url rid key (Failure err :: results) n st in
  run.2 = Unhandled JS.TypeError
  ∧ settlements (log run.1) = settlements (log st)
  ∧ requestQueue run.1 = requestQueue st
  ∧ transports (log run.1) = S (transports (log st)).
Proof.
  intros Hflag Hretry Hbad. cbn zeta. rewrite AdapterFacts.attempt_eq. cbn zeta.
  rewrite AdapterFacts.onRejected_flag_on, Hretry by done. cbn zeta.
  pose proof (AdapterFacts.start_frame o url st) as (_ & _ & _ & Hq & _ & Ht & _).
  pose proof (start_effects o url st) as Hs.
  match goal with
  | |- context [errorMessage ?l ?e ?s] =>
      pose proof (errorMessage_state l e s) as Hmsg;
      destruct (errorMessage l e s) as [x|[message st']] eqn:Hem
  end.
  - assert (x = JS.TypeError) as ->.
    { unfold errorMessage in Hem. fold (processed ctl err) in Hem.
      unfold extractable in Hbad.
      destruct (err_response (processed ctl err)) as [response|]; [|done].
      destruct (JS.truthy (res_data response)) eqn:Htruthy; [|done].
      destruct (serverSideMessage (res_data response)) as [e|m] eqn:Hssm; [|done].
      injection Hem as <-. by apply (serverSideMessage_TypeError _ _ Hssm). }
    cbn [fst snd]. simpl.
    rewrite settlements_app, settlements_ErrorEvent, app_nil_r,
      AdapterFacts.transports_app, AdapterFacts.transports_ErrorEvent, Nat.add_0_r.
    done.
  - destruct Hmsg as [Hok _]. unfold processed in Hbad. congruence.
Qed.

Lemma unextractable_failure_leaves_group_pending_witness :
  let run :=
    attempt ES5 None (Samples.configuration true None) Samples.no_hooks Samples.plain
      "/users" "1" "k" [Failure malformed; Success (Samples.answer 200 Samples.user_list)]
      0 Samples.busy in
  run.2 = Unhandled JS.TypeError
  ∧ settlements (log run.1) = []
  ∧ requestQueue run.1 = requestQueue Samples.busy.
Proof.
  intros run.
  destruct (unextractable_failure_leaves_group_pending ES5 None
              (Samples.configuration true None) Samples.no_hooks Samples.plain
              "/users" "1" "k" malformed [Success (Samples.answer 200 Samples.user_list)]
              0 Samples.busy false)
    as (Hout & Hs & Hq & _); try reflexivity.
  split; [exact Hout|]. split; [exact Hs | exact Hq].
Defined.

Lemma matches_request_failed_app pre s :
  matches_request_failed s = true → matches_request_failed (pre +:+ s) = true.
Proof.
  intros Hs. induction pre as [|c pre IH]; [done|].
  change (String c pre +:+ s) with (String c (pre +:+ s)).
  cbn [matches_request_failed]. rewrite IH. apply orb_true_r.
Qed.

Lemma matches_request_failed_here s :
  request_failed_here s = true → matches_request_failed s = true.
Proof. intros H. destruct s; cbn [matches_request_failed]; by rewrite H. Qed.

(** X14. When a failure has no response, or a response with an empty
    body, a transport message that contains "Request failed" (the
    wording of axios for a status it rejects) is not shown: the message
    is the generic one. Any other non-empty transport message, such as
    that of a cancellation, is shown inside the formatted message. *)
Theorem transport_wording_suppressed (label pre post : string) (err : AxiosError) st :
  (∀ r, err_response err = Some r → JS.truthy (res_data r) = false) →
  (err_message err = pre +:+ "Request failed" +:+ post →
   errorMessage label err st
   = inr ("Error: '" +:+ label +:+ "' failed. Something went wrong", st))
  ∧ (err_message err = CANCELLED_API_REQUEST_MESSAGE →
     errorMessage label err st
     = inr ("Error: '" +:+ label +:+ "' failed with message " +:+ dquote
            +:+ "Request Cancelled" +:+ dquote, st)).
Proof.
  intros Hbody.
  assert (Hem : errorMessage label err st
                = inr (if negb (String.eqb (err_message err) EmptyString)
                          && negb (matches_request_failed (err_message err))
                       then failed_with_message label (err_message err)
                       else "Error: '" +:+ label +:+ "' failed. Something went wrong",
                       st)).
  { unfold errorMessage. destruct (err_response err) as [r|]; [|done].
    by rewrite (Hbody r eq_refl). }
  rewrite Hem. split; intros ->.
  - rewrite matches_request_failed_app; [by rewrite andb_false_r|].
    by apply matches_request_failed_here.
  - done.
Qed.

Lemma transport_wording_suppressed_witness :
  errorMessage "Loading users" (Samples.failure 503 (JS.Str EmptyString)) Samples.busy
  = inr ("Error: 'Loading users' failed. Something went wrong", Samples.busy).
Proof.
  destruct (transport_wording_suppressed "Loading users" EmptyString
              " with status code 503" (Samples.failure 503 (JS.Str EmptyString))
              Samples.busy) as [H _].
  - by intros r [= <-].
  - by apply H.
Defined.

Lemma prefix_app (a b c : string) :
  String.prefix (a +:+ b) (a +:+ c) = String.prefix b c.
Proof.
  induction a as [|x a IH]; [done|].
  change (String x a +:+ b) with (String x (a +:+ b)).
  change (String x a +:+ c) with (String x (a +:+ c)).
  cbn [String.prefix]. by destruct (Ascii.ascii_dec x x).
Qed.

(** X15. The message of a rejection built by the failure handler is
    either one of the session-expiry phrases, as the server sent it, or
    a text that starts with [Error: '<label>' failed]; the phrases do
    not start that way, so a caller can tell the two apart. *)
Theorem rejection_message_shape (label : string) (err : AxiosError) st m st' :
  errorMessage label err st = inr (m, st') →
  (m ∈ EXPIRED_SESSION_ERROR_MESSAGES
   ∨ String.prefix ("Error: '" +:+ label +:+ "' failed") m = true)
  ∧ (m ∈ EXPIRED_SESSION_ERROR_MESSAGES → String.prefix "Error: '" m = false).
Proof.
  intros Hem. split.
  - assert (Hformatted : ∀ text,
      String.prefix ("Error: '" +:+ label +:+ "' failed")
        (failed_with_message label text) = true).
    { intros text. unfold failed_with_message.
      by rewrite (prefix_app "Error: '"), (prefix_app label). }
    assert (Hgeneric :
      String.prefix ("Error: '" +:+ label +:+ "' failed")
        ("Error: '" +:+ label +:+ "' failed. Something went wrong") = true).
    { by rewrite (prefix_app "Error: '"), (prefix_app label). }
    unfold errorMessage in Hem.
    destruct (err_response err) as [response|].
    + destruct (JS.truthy _).
      * destruct (serverSideMessage _) as [e|message]; [done|].
        unfold includes in Hem. case_bool_decide; injection Hem as <- <-; auto.
      * injection Hem as <- <-. right. by destruct (_ && _).
    + injection Hem as <- <-. right. by destruct (_ && _).
  - unfold EXPIRED_SESSION_ERROR_MESSAGES. rewrite !elem_of_cons.
    intros [->|[->|[->|[->|[->|?%elem_of_nil]]]]]; done.
Qed.

Lemma rejection_message_shape_witness :
  String.prefix "Error: 'operation' failed"
    "Error: 'operation' failed. Something went wrong" = true.
Proof.
  destruct (rejection_message_shape "operation" (Samples.failure 503 JS.Null)
              Samples.busy "Error: 'operation' failed. Something went wrong"
              Samples.busy eq_refl) as [[Hin|Hprefix] _].
  - exfalso. revert Hin. unfold EXPIRED_SESSION_ERROR_MESSAGES. rewrite !elem_of_cons.
    by intros [?|[?|[?|[?|[?|?%elem_of_nil]]]]].
  - exact Hprefix.
Defined.

End PipelineLaws.

(** * Settlement after a look at the cache *)

Module CacheLaws.
Import RequestQueue Adapter Surface.

(** ** The log only grows *)

Local Abbreviation extends st st' := (∃ later, log st' = log st ++ later).











(** ** Who receives what *)

(** A run of the inner [fetchData] on a pending group: the callers are
    handed the outcome of the run, or nothing. *)
Lemma attempt_settles target id cfg ctl o url rid key results n st group :
  requestQueue st !! key = Some group → group ≠ [] →
  let run := attempt target id cfg ctl o url rid key results n st in
  match run.2 with
  | Fulfilled p =>
      settlements (log run.1)
      = settlements (log st) ++ map (fun r => Resolved (waiter r) p) group
      ∧ requestQueue run.1 = delete key (requestQueue st)
  | Failed e =>
      settlements (log run.1)
      = settlements (log st) ++ map (fun r => Rejected (waiter r) e) group
      ∧ requestQueue run.1 = delete key (requestQueue st)
  | InFlight | Unhandled _ =>
      settlements (log run.1) = settlements (log st)
      ∧ requestQueue run.1 = requestQueue st
  end.
Proof.
  intros Hq Hne. cbn zeta. unfold attempt.
  pose proof (AdapterFacts.start_frame o url st) as (_ & _ & _ & Hq' & _).
  pose proof (PipelineLaws.start_effects o url st) as Hs'.
  pose proof (PipelineLaws.resume_settles target id cfg ctl o url rid key results
                (start o url st).1 n (start o url st).2 group) as H.
  destruct (start o url st) as [tok st1]. cbn [fst snd] in *. cbn zeta in H.
  rewrite Hq', Hs' in H. by apply H.
Qed.

(** C10. The two shapes of a resolution. On a cache hit that is not
    stale every caller waiting in the group is resolved with the object
    literal of line 353: its only key is [data], holding the cached
    value, and it has neither a status nor headers. On a transport
    success every caller is resolved with the response the [then]
    handler returned, with its status and headers. *)
Theorem cache_hit_payload_has_only_data
    target id cfg ctl o url rid key results st c store entry r results' n st' :
  method o = None ∨ method o = Some "get" ∨ method o = Some "GET" →
  cacheId o = Some c → c ≠ EmptyString →
  cache cfg = Some store →
  getCachedData store c rid = Some entry →
  isStale entry = None ∨ isStale entry = Some false →
  let cached := callback target id cfg ctl o url rid key results st in
  let sent := attempt target id cfg ctl o url rid key (Success r :: results') n st' in
  (∃ hit,
     cached.2 = Fulfilled hit
     ∧ (∀ group, requestQueue st !! key = Some group → group ≠ [] →
          settlements (log cached.1)
          = settlements (log st) ++ map (fun q => Resolved (waiter q) hit) group)
     ∧ own_keys hit = ["data"]
     ∧ payload_data hit = entry_data entry
     ∧ payload_status hit = None
     ∧ payload_headers hit = None)
  ∧ (∃ fetched,
       sent.2 = Fulfilled fetched
       ∧ (∀ group, requestQueue st' !! key = Some group → group ≠ [] →
            settlements (log sent.1)
            = settlements (log st') ++ map (fun q => Resolved (waiter q) fetched) group)
       ∧ fetched = Response (onFulfilled ctl o r)
       ∧ own_keys fetched = ["data"; "status"; "headers"]
       ∧ payload_data fetched = res_data (onFulfilled ctl o r)
       ∧ payload_status fetched = Some (res_status (onFulfilled ctl o r))
       ∧ payload_headers fetched = Some (res_headers (onFulfilled ctl o r))).
Proof.
  intros Hm Hc Hne Hstore Hentry Hfresh cached sent. split.
  - exists (CachedData (entry_data entry)). unfold cached.
    rewrite (AdapterFacts.callback_entry _ _ _ _ _ _ _ _ _ _ c store entry)
      by auto using AdapterFacts.get_equivalent_verbs.
    assert (default false (isStale entry) = false) as ->
      by by destruct Hfresh as [-> | ->].
    cbn [fst snd]. split; [done|]. split; [|done].
    intros group Hq Hgroup.
    by destruct (PipelineLaws.resolve_settles key (CachedData (entry_data entry))
                   st group Hq Hgroup) as [-> _].
  - exists (Response (onFulfilled ctl o r)).
    assert (Hout : sent.2 = Fulfilled (Response (onFulfilled ctl o r)))
      by apply AdapterFacts.attempt_Success.
    split; [done|]. split; [|done].
    intros group Hq Hgroup.
    pose proof (attempt_settles target id cfg ctl o url rid key (Success r :: results')
                  n st' group Hq Hgroup) as H.
    cbn zeta in H. fold sent in H. rewrite Hout in H. by destruct H.
Qed.

Lemma cache_hit_payload_has_only_data_witness :
  let cfg := Samples.configuration true (Some (Samples.store (Some false))) in
  let o := Samples.cached "users" None in
  let cached := callback ES5 None cfg Samples.no_hooks o "/users" "1" "k" [] Samples.busy in
  let sent :=
    attempt ES5 None cfg Samples.no_hooks o "/users" "1" "k"
      [Success (Samples.answer 200 Samples.user_list)] 0 Samples.busy in
  settlements (log cached.1)
  = [Resolved 1 (CachedData (JS.Arr [])); Resolved 2 (CachedData (JS.Arr []))]
  ∧ settlements (log sent.1)
    = [Resolved 1 (Response (Samples.answer 200 Samples.user_list));
       Resolved 2 (Response (Samples.answer 200 Samples.user_list))]
  ∧ own_keys (CachedData (JS.Arr [])) = ["data"].
Proof.
  intros cfg o cached sent.
  destruct (cache_hit_payload_has_only_data ES5 None cfg Samples.no_hooks o
              "/users" "1" "k" [] Samples.busy "users"
              (Samples.store (Some false))
              {| isStale := Some false; entry_data := JS.Arr [] |}
              (Samples.answer 200 Samples.user_list) [] 0 Samples.busy)
    as [(hit & H1 & H2 & H3 & _) (fetched & H4 & H5 & _)];
    try reflexivity; try discriminate.
  - by right; right.
  - by right.
  - fold cached in H1, H2. fold sent in H4, H5.
    assert (hit = CachedData (JS.Arr [])) as -> by (by injection H1 as <-).
    assert (fetched = Response (Samples.answer 200 Samples.user_list)) as ->
      by (by injection H4 as <-).
    split; [|split; [|exact H3]].
    + by rewrite (H2 [Samples.users 1; Samples.users 2]).
    + by rewrite (H5 [Samples.users 1; Samples.users 2]).
Defined.



End CacheLaws.

(** * Properties of the call surface *)

Module SurfaceLaws.
Import RequestQueue Adapter Surface.

Section Calls.
Variable hashIt : AxiosRequestConfig → option Waiter → Z.
Variable FormData_defined : bool.
Variable addSearchParams : string → JS.value → string.
Variable target : ScriptTarget.
Variable id : option string.
Variable cfg : IAPIAdapterConfiguration.
Variable ctl : RequestController.

Local Abbreviation fetchData :=
  (fetchData hashIt FormData_defined addSearchParams target id cfg ctl).
Local Abbreviation fingerprint := (fingerprint hashIt FormData_defined addSearchParams cfg).
Local Abbreviation queued := (queued addSearchParams cfg).
Local Abbreviation resolved_url := (resolved_url addSearchParams cfg).
Local Abbreviation callback := (callback target id cfg ctl).
Local Abbreviation attempt := (attempt target id cfg ctl).

(** [fetchData], by what [queueRequest] finds under the fingerprint. *)
Lemma fetchData_eq path o w now results st :
  fetchData path o w now results st
  = let key := fingerprint path o w now in
    match requestQueue st !! key with
    | Some group =>
        (set_queue (<[key := group ++ [queued path o w]]> (requestQueue st)) st, InFlight)
    | None =>
        callback (merged cfg o) (resolved_url path o)
          (JS.Number_toString (hashIt (config (queued path o w)) None)) key results
          (set_queue (<[key := [queued path o w]]> (requestQueue st)) st)
    end.
Proof.
  unfold Adapter.fetchData, Surface.fingerprint, RequestQueue.queueRequest. cbn zeta.
  fold (merged cfg o). fold (resolved_url path o). fold (queued path o w).
  by destruct (requestQueue st !! _).
Qed.






End Calls.


Section Verbs.
Variable hashIt : AxiosRequestConfig → option Waiter → Z.
Variable FormData_defined : bool.
Variable addSearchParams : string → JS.value → string.
Variable target : ScriptTarget.
Variable id : option string.
Variable cfg : IAPIAdapterConfiguration.
Variable ctl : RequestController.
Variable JSON_stringify : Body → string.

Local Abbreviation getRequestDefaultOptions :=
  (getRequestDefaultOptions FormData_defined JSON_stringify).
Local Abbreviation fetchData :=
  (fetchData hashIt FormData_defined addSearchParams target id cfg ctl).
Local Abbreviation fingerprint := (fingerprint hashIt FormData_defined addSearchParams cfg).

Lemma with_headers_data_again h d o :
  with_headers_data h d (with_headers_data h d o) = with_headers_data h d o.
Proof. done. Qed.

(** X16. [getRequestDefaultOptions] is idempotent, changes no header
    other than [Content-Type], and leaves headers and body as they are
    when the caller has set a [Content-Type]; in particular a body it
    has serialised is not serialised again. *)
Theorem default_options_idempotent (o : RequestOptions) :
  let o' := getRequestDefaultOptions o in
  getRequestDefaultOptions o' = o'
  ∧ (∀ k, k ≠ "Content-Type" →
          default ∅ (headers o') !! k = default ∅ (headers o) !! k)
  ∧ (∀ v, default ∅ (headers o) !! "Content-Type" = Some v → v ≠ EmptyString →
          headers o' = Some (default ∅ (headers o)) ∧ Adapter.data o' = Adapter.data o)
  ∧ Adapter.method o' = Adapter.method o ∧ cacheId o' = cacheId o
  ∧ label o' = label o ∧ Adapter.rest o' = Adapter.rest o.
Proof.
  cbn zeta.
  set (h := default ∅ (headers o)).
  set (set_by := fun h' : gmap string string =>
         match h' !! "Content-Type" with
         | Some v => negb (String.eqb v EmptyString)
         | None => false
         end).
  set (is_object := fun d : Body =>
         match d with
         | PlainData v => typeof_object v
         | FormData _ => true
         | NoData => false
         end).
  assert (Hstep : ∀ h' d' o0,
    getRequestDefaultOptions (with_headers_data h' d' o0)
    = if truthy_body d' && negb (set_by h') then
        if FormData_defined && instanceof_FormData d' then
          with_headers_data (<["Content-Type" := "multipart/form-data"]> h') d' o0
        else if is_object d' then
          with_headers_data (<["Content-Type" := "application/json"]> h')
            (PlainData (JS.Str
               (JSON_stringify (Adapter.data (with_headers_data h' d' o0))))) o0
        else with_headers_data h' d' o0
      else with_headers_data h' d' o0).
  { intros h' d' o0. unfold Surface.getRequestDefaultOptions. cbn zeta.
    change (default ∅ (headers (with_headers_data h' d' o0))) with h'.
    change (Adapter.data (with_headers_data h' d' o0)) with d'.
    fold (set_by h'). fold (is_object d').
    by repeat (match goal with |- context [if ?b then _ else _] => destruct b end). }
  assert (Hfirst : getRequestDefaultOptions o
                   = getRequestDefaultOptions (with_headers_data h (Adapter.data o) o)).
  { unfold Surface.getRequestDefaultOptions. cbn zeta.
    change (default ∅ (headers (with_headers_data h (Adapter.data o) o))) with h.
    change (Adapter.data (with_headers_data h (Adapter.data o) o)) with (Adapter.data o).
    fold h.
    by repeat (match goal with |- context [if ?b then _ else _] => destruct b end). }
  rewrite Hfirst, Hstep.
  change (Adapter.data (with_headers_data h (Adapter.data o) o)) with (Adapter.data o).
  assert (Hset : ∀ v, v ≠ EmptyString → set_by (<["Content-Type" := v]> h) = true).
  { intros v Hv. unfold set_by. rewrite lookup_insert_eq.
    by destruct (String.eqb_spec v EmptyString). }
  assert (Hclose : ∀ h' d',
    (∀ k, k ≠ "Content-Type" → h' !! k = h !! k) →
    (∀ v, h !! "Content-Type" = Some v → v ≠ EmptyString →
          h' = h ∧ d' = Adapter.data o) →
    (∀ k, k ≠ "Content-Type" →
          default ∅ (headers (with_headers_data h' d' o)) !! k = h !! k)
    ∧ (∀ v, h !! "Content-Type" = Some v → v ≠ EmptyString →
            headers (with_headers_data h' d' o) = Some h
            ∧ Adapter.data (with_headers_data h' d' o) = Adapter.data o)
    ∧ Adapter.method (with_headers_data h' d' o) = Adapter.method o
    ∧ cacheId (with_headers_data h' d' o) = cacheId o
    ∧ label (with_headers_data h' d' o) = label o
    ∧ Adapter.rest (with_headers_data h' d' o) = Adapter.rest o).
  { intros h' d' Hother Hkept. split; [exact Hother|]. split; [|done].
    intros v Hv Hne. by destruct (Hkept v Hv Hne) as [-> ->]. }
  assert (Hunset : ∀ v, negb (set_by h) = true →
                        h !! "Content-Type" = Some v → v ≠ EmptyString → False).
  { intros v Hno Hv Hne. unfold set_by in Hno. rewrite Hv in Hno.
    by destruct (String.eqb_spec v EmptyString). }
  destruct (truthy_body (Adapter.data o)) eqn:Hbody;
    [destruct (negb (set_by h)) eqn:Hct|]; cbn [andb];
    [destruct (FormData_defined && instanceof_FormData (Adapter.data o)) eqn:Hfd;
       [|destruct (is_object (Adapter.data o)) eqn:Hobj]| |].
  - split.
    + rewrite Hstep, Hbody, Hset by done. done.
    + apply Hclose; [by intros k Hk; rewrite lookup_insert_ne|].
      intros v Hv Hne. by destruct (Hunset v eq_refl Hv Hne).
  - split.
    + rewrite Hstep, Hset by done. by rewrite andb_false_r.
    + apply Hclose; [by intros k Hk; rewrite lookup_insert_ne|].
      intros v Hv Hne. by destruct (Hunset v eq_refl Hv Hne).
  - split.
    + rewrite Hstep, Hbody, Hct, Hfd, Hobj. done.
    + by apply Hclose.
  - split.
    + rewrite Hstep, Hbody, Hct. done.
    + by apply Hclose.
  - split.
    + rewrite Hstep, Hbody. done.
    + by apply Hclose.
Qed.

Lemma getRequestDefaultOptions_method o :
  own_method (getRequestDefaultOptions o) = own_method o.
Proof.
  unfold Surface.getRequestDefaultOptions. cbn zeta.
  by repeat (match goal with |- context [if ?b then _ else _] => destruct b end).
Qed.

Lemma merged_method m o : Adapter.method (merged cfg (with_method m o)) = Some m.
Proof. unfold Adapter.method, merged, spread. by destruct (defaultRequestOptions cfg). Qed.

Lemma merged_method_default_options m o :
  Adapter.method (merged cfg (getRequestDefaultOptions (with_method m o))) = Some m.
Proof.
  pose proof (getRequestDefaultOptions_method (with_method m o)) as Hm.
  unfold Adapter.method, merged, spread.
  destruct (defaultRequestOptions cfg); simpl; by rewrite Hm.
Qed.

(** A call whose method is not GET-equivalent goes to the transport
    without a look at the cache. *)
Lemma fetchData_not_get path i w now results st m :
  Adapter.method (merged cfg i) = Some m → get_equivalent (Some m) = false →
  let run := fetchData path i w now results st in
  (∀ d, run.2 ≠ Fulfilled (CachedData d))
  ∧ (run.2 = InFlight ∨ S (transports (log st)) ≤ transports (log run.1)).
Proof.
  intros Hm Hget. cbn zeta. rewrite SurfaceLaws.fetchData_eq. cbn zeta.
  destruct (requestQueue st !! _) as [group|]; [by auto|].
  assert (Hcb : ∀ url rid key st',
            callback target id cfg ctl (merged cfg i) url rid key results st'
            = attempt target id cfg ctl (merged cfg i) url rid key results 0 st').
  { intros url rid key st'. unfold callback. cbn zeta. rewrite Hm, Hget.
    by destruct (caching cfg (merged cfg i)) as [[? ?]|]. }
  rewrite Hcb. split.
  - intros d. apply AdapterFacts.attempt_not_cached.
  - right. etrans; [|apply AdapterFacts.attempt_transports]. done.
Qed.

(** X17. [post], [put], [patch] and [_delete] never answer from the
    cache, whatever it holds and whether or not the call carries a
    cacheId: none of them resolves with the shape of a cache hit, and
    one that is settled has invoked the transport. *)
Theorem writes_bypass_the_cache path o w now results st run :
  run ∈ [ post hashIt FormData_defined addSearchParams target id cfg ctl
            JSON_stringify path o w now results st;
          put hashIt FormData_defined addSearchParams target id cfg ctl
            JSON_stringify path o w now results st;
          patch hashIt FormData_defined addSearchParams target id cfg ctl
            JSON_stringify path o w now results st;
          _delete hashIt FormData_defined addSearchParams target id cfg ctl
            path o w now results st ] →
  (∀ d, run.2 ≠ Fulfilled (CachedData d))
  ∧ (run.2 = InFlight ∨ S (transports (log st)) ≤ transports (log run.1)).
Proof.
  rewrite !elem_of_cons.
  intros [->|[->|[->|[->|?%elem_of_nil]]]]; [| | | |done];
    unfold post, put, patch, _delete;
    eapply fetchData_not_get;
    first [apply merged_method_default_options | apply merged_method | done].
Qed.

(** X18. When a request carries a cacheId and a cache is configured, the
    body of every successful response is handed to [cacheData] under
    that cacheId before any caller of the group is resolved, whatever
    the method of the request. *)
Theorem success_is_cached_before_settlement o url rid key r results n st c store :
  caching cfg o = Some (c, store) →
  let run := attempt target id cfg ctl o url rid key (Success r :: results) n st in
  ∃ before after,
    log run.1
    = log st ++ before ++ CacheData c rid (res_data (onFulfilled ctl o r)) :: after
    ∧ settlements before = [].
Proof.
  intros Hc. cbn zeta. rewrite AdapterFacts.attempt_eq. cbn zeta. cbn [fst].
  unfold onResponse. cbn zeta. rewrite Hc.
  unfold resolve. destruct (resolveRequest _ _ _) as [q ss].
  exists
    (match getRequestController o with
     | Some hook => [HandedController hook (sources_created st)]
     | None => []
     end
     ++ [Transport url (default ∅ (headers o) ∪ defaultRequestHeaders st)
           (sources_created st)]
     ++ match rotateHeaders ctl with
        | Some f =>
            [StorageAdd (defaultRequestHeadersStorageKey id)
               (Object_assign (defaultRequestHeaders st)
                  (f (res_headers (onFulfilled ctl o r)) (defaultRequestHeaders st)))]
        | None => []
        end),
    (match onServerSuccess o with
     | Some hook => [ServerSuccess hook (onFulfilled ctl o r)]
     | None => []
     end ++ map Settle ss).
  unfold start. simpl.
  destruct (getRequestController o), (rotateHeaders ctl), (onServerSuccess o); simpl;
    rewrite <- ?app_assoc; simpl; by split.
Qed.

End Verbs.

Lemma default_options_idempotent_witness :
  let o' := getRequestDefaultOptions true to_text new_user in
  getRequestDefaultOptions true to_text o' = o'
  ∧ default ∅ (headers o') !! "X-Trace" = Some "7".
Proof.
  intros o'.
  destruct (default_options_idempotent true to_text new_user) as (Hidem & Hother & _).
  split; [exact Hidem|]. by rewrite Hother.
Defined.

Lemma writes_bypass_the_cache_witness :
  let run :=
    post Samples.textual_hash true Samples.no_addSearchParams ES5 None
      (Samples.configuration true (Some (Samples.store None))) Samples.no_hooks
      to_text "/users" new_user 1 1000%Z
      [Success (Samples.answer 201 Samples.user_list)] Samples.idle in
  (∀ d, run.2 ≠ Fulfilled (CachedData d)) ∧ 1 ≤ transports (log run.1).
Proof.
  intros run.
  destruct (writes_bypass_the_cache Samples.textual_hash true
              Samples.no_addSearchParams ES5 None
              (Samples.configuration true (Some (Samples.store None)))
              Samples.no_hooks to_text "/users" new_user 1 1000%Z
              [Success (Samples.answer 201 Samples.user_list)] Samples.idle run)
    as [Hnever [Hin|Hsent]].
  - by left.
  - discriminate Hin.
  - split; [exact Hnever | exact Hsent].
Defined.

Lemma success_is_cached_before_settlement_witness :
  CacheData "users" "1" Samples.user_list
  ∈ log (attempt ES5 None (Samples.configuration true (Some (Samples.store None)))
           Samples.no_hooks (with_method "POST" new_user) "/users" "1" "k"
           [Success (Samples.answer 201 Samples.user_list)] 0 Samples.busy).1.
Proof.
  destruct (success_is_cached_before_settlement ES5 None
              (Samples.configuration true (Some (Samples.store None)))
              Samples.no_hooks (with_method "POST" new_user) "/users" "1" "k"
              (Samples.answer 201 Samples.user_list) [] 0 Samples.busy
              "users" (Samples.store None) eq_refl) as (before & after & -> & _).
  rewrite !elem_of_app, elem_of_cons. auto.
Defined.

End SurfaceLaws.

(** * Properties of the default headers and the listeners *)

Module StoreLaws.
Import Adapter Surface.

Lemma storage_key_inj (a b : string) :
  a ≠ EmptyString → b ≠ EmptyString → a ≠ b →
  defaultRequestHeadersStorageKey (Some a) ≠ defaultRequestHeadersStorageKey (Some b).
Proof.
  intros Ha Hb Hab. unfold defaultRequestHeadersStorageKey.
  destruct (String.eqb_spec a EmptyString); [done|].
  destruct (String.eqb_spec b EmptyString); [done|].
  intros Heq. apply Hab. by apply (inj (String.app "defaultRequestHeaders")) in Heq.
Qed.

(** X19. Default headers survive a reload: an adapter created over the
    storage that [patchDefaultRequestHeaders] wrote, with the same id,
    starts with exactly the headers in force after the patch, and a
    [focus] event after the patch changes nothing. An adapter with
    another storage key starts as if the patch had not happened. *)
Theorem patched_headers_survive_reload id headers hs :
  let hs' := patchStoredRequestHeaders id headers hs in
  current (getAPIAdapter_headers id (StorageManager hs')) = current hs'
  ∧ setDefaultRequestHeaders id hs' = hs'
  ∧ (∀ id', defaultRequestHeadersStorageKey id' ≠ defaultRequestHeadersStorageKey id →
            getAPIAdapter_headers id' (StorageManager hs')
            = {| current := current (getAPIAdapter_headers id' (StorageManager hs));
                 StorageManager := StorageManager hs' |})
  ∧ (∀ st, defaultRequestHeaders st = current hs →
           defaultRequestHeaders (patchDefaultRequestHeaders id headers st) = current hs'
           ∧ log (patchDefaultRequestHeaders id headers st)
             = log st ++ [StorageAdd (defaultRequestHeadersStorageKey id) (current hs')]).
Proof.
  cbn zeta. unfold getAPIAdapter_headers, setDefaultRequestHeaders,
    patchStoredRequestHeaders. simpl. rewrite !lookup_insert_eq. simpl.
  split; [by rewrite (right_id ∅ (∪))|].
  split; [by rewrite (idemp (∪))|]. split.
  - intros id' Hne. rewrite lookup_insert_ne by done.
    by destruct (StorageManager hs !! defaultRequestHeadersStorageKey id').
  - intros st Hst. unfold patchDefaultRequestHeaders. simpl. by rewrite Hst.
Qed.

(** X20. After [logout] no default header is left and the stored copy
    is gone: a [focus] event brings nothing back, and an adapter created
    afterwards with the same id starts without headers. The entries of
    other storage keys stay. A [focus] event by itself never removes a
    header: with the stored copy cleared elsewhere, the headers in force
    stay in force. *)
Theorem logout_clears_headers id hs :
  let out := logout id hs in
  current out = ∅
  ∧ setDefaultRequestHeaders id out = out
  ∧ current (getAPIAdapter_headers id (StorageManager out)) = ∅
  ∧ (∀ k, k ≠ defaultRequestHeadersStorageKey id →
          StorageManager out !! k = StorageManager hs !! k)
  ∧ setDefaultRequestHeaders id
      {| current := current hs; StorageManager := StorageManager out |}
    = {| current := current hs; StorageManager := StorageManager out |}
  ∧ (∀ k, is_Some (current hs !! k) →
          is_Some (current (setDefaultRequestHeaders id hs) !! k)).
Proof.
  cbn zeta. unfold logout, clearDefaultRequestHeaders, getAPIAdapter_headers,
    setDefaultRequestHeaders. simpl. rewrite !lookup_delete_eq.
  split; [done|]. split; [done|]. split; [done|]. split.
  - intros k Hk. by rewrite lookup_delete_ne.
  - split; [done|]. intros k [v Hv].
    destruct (StorageManager hs !! defaultRequestHeadersStorageKey id) as [stored|];
      simpl; [|by eauto].
    rewrite lookup_union. rewrite Hv. destruct (stored !! k); by eauto.
Qed.

Lemma patched_headers_survive_reload_witness :
  let hs' :=
    patchStoredRequestHeaders None (Some {[ "Authorization" := "Bearer new" ]})
      signed_in in
  current (getAPIAdapter_headers None (StorageManager hs'))
  = {[ "Authorization" := "Bearer new" ]}
  ∧ current (getAPIAdapter_headers (Some "admin") (StorageManager hs'))
    = {[ "X-Role" := "admin" ]}.
Proof.
  intros hs'.
  destruct (patched_headers_survive_reload None
              (Some {[ "Authorization" := "Bearer new" ]}) signed_in)
    as (Hreload & _ & Hother & _).
  split.
  - etrans; [exact Hreload|]. reflexivity.
  - fold hs' in Hother. rewrite (Hother (Some "admin")); [reflexivity|].
    intros Heq. vm_compute in Heq. discriminate.
Defined.

Lemma logout_clears_headers_witness :
  let out := logout None signed_in in
  current (getAPIAdapter_headers None (StorageManager out)) = ∅
  ∧ StorageManager out !! "defaultRequestHeadersadmin" = Some {[ "X-Role" := "admin" ]}.
Proof.
  intros out.
  destruct (logout_clears_headers None signed_in) as (_ & _ & Hreload & Hother & _).
  split; [exact Hreload|]. fold out in Hother. by rewrite Hother.
Defined.

(** ** Error listeners *)

Lemma with_listeners_same c : with_listeners (error_listeners c) c = c.
Proof. by destruct c. Qed.

Lemma indexOf_snoc_fresh ls (l : nat) :
  l ∉ ls → indexOf (ls ++ [l]) l = Some (length ls).
Proof.
  induction ls as [|x ls IH]; intros Hl; simpl.
  - by rewrite bool_decide_eq_true_2.
  - apply not_elem_of_cons in Hl as [Hne Hl].
    rewrite bool_decide_eq_false_2 by done. by rewrite IH.
Qed.

Lemma delete_snoc {A} (ls : list A) (x : A) : delete (length ls) (ls ++ [x]) = ls.
Proof. induction ls as [|y ls IH]; simpl; [done|]. by rewrite IH. Qed.

Lemma indexOf_Some_lookup ls (l : nat) i :
  indexOf ls l = Some i → ls !! i = Some l ∧ l ∉ take i ls.
Proof.
  revert i. induction ls as [|x ls IH]; intros i; simpl; [done|].
  case_bool_decide as Hx.
  - intros [= <-]. subst x. split; [done|]. apply not_elem_of_nil.
  - destruct (indexOf ls l) as [j|]; simpl; [|done]. intros [= <-].
    destruct (IH j eq_refl) as [Hj Hnot]. split; [done|].
    simpl. apply not_elem_of_cons. split; [congruence|done].
Qed.

(** X21. [removeEventListener] undoes [addEventListener] for a listener
    that was not registered before; on a listener that is not
    registered it changes nothing (the index -1 is guarded here); on one
    that is registered it removes its first registration only, keeping
    the others in their order; and neither touches the hooks of the
    controller. *)
Theorem listeners_add_remove (l : nat) (c : RequestController) :
  (l ∉ error_listeners c → removeEventListener l (addEventListener l c) = c)
  ∧ (l ∉ error_listeners c → removeEventListener l c = c)
  ∧ (l ∈ error_listeners c →
     ∃ before after,
       error_listeners c = before ++ l :: after
       ∧ (l ∉ before)
       ∧ error_listeners (removeEventListener l c) = before ++ after)
  ∧ shouldRetryRequest (removeEventListener l c) = shouldRetryRequest c
  ∧ shouldRetryRequest (addEventListener l c) = shouldRetryRequest c
  ∧ error_listeners (addEventListener l c) = error_listeners c ++ [l].
Proof.
  split; [|split; [|split]].
  - intros Hl. unfold removeEventListener, addEventListener. simpl.
    rewrite indexOf_snoc_fresh by done. destruct c. simpl. by rewrite delete_snoc.
  - intros Hl. unfold removeEventListener.
    by apply AdapterFacts.indexOf_None in Hl as ->.
  - intros Hl. unfold removeEventListener.
    destruct (indexOf (error_listeners c) l) as [i|] eqn:Hi;
      [|by apply AdapterFacts.indexOf_None in Hi].
    destruct (indexOf_Some_lookup _ _ _ Hi) as [Hlook Hnot].
    exists (take i (error_listeners c)), (drop (S i) (error_listeners c)).
    split; [|split; [done|]].
    + by rewrite <- (take_drop_middle _ _ _ Hlook) at 1.
    + simpl. apply delete_take_drop.
  - unfold removeEventListener, addEventListener.
    by destruct (indexOf (error_listeners c) l).
Qed.

Lemma listeners_add_remove_witness :
  error_listeners
    (removeEventListener 4
       (with_listeners [3; 4; 5; 4] Samples.no_hooks))
  = [3; 5; 4]
  ∧ removeEventListener 9 (with_listeners [3; 4] Samples.no_hooks)
    = with_listeners [3; 4] Samples.no_hooks.
Proof.
  destruct (listeners_add_remove 4 (with_listeners [3; 4; 5; 4] Samples.no_hooks))
    as (_ & _ & Hfirst & _).
  destruct (listeners_add_remove 9 (with_listeners [3; 4] Samples.no_hooks))
    as (_ & Habsent & _).
  split.
  - destruct Hfirst as (before & after & Hsplit & Hnot & _); [set_solver|].
    reflexivity.
  - apply Habsent. set_solver.
Defined.

Lemma error_events_app l1 l2 : error_events (l1 ++ l2) = error_events l1 ++ error_events l2.
Proof. apply omap_app. Qed.

Lemma error_events_Settle ss : error_events (map Settle ss) = [].
Proof. by induction ss. Qed.

Lemma error_events_Cancel ts : error_events (map Cancel ts) = [].
Proof. by induction ts. Qed.

Lemma error_events_ErrorEvent ls err :
  error_events (map (fun l => ErrorEvent l err) ls) = map (fun l => (l, err)) ls.
Proof. induction ls as [|l ls IH]; [done|]. unfold error_events. simpl. f_equal. exact IH. Qed.

Lemma reject_error_events key e st :
  error_events (log (reject key e st)) = error_events (log st).
Proof.
  unfold reject. destruct (RequestQueue.rejectRequest _ _ _) as [q ss]. simpl.
  by rewrite error_events_app, error_events_Settle, app_nil_r.
Qed.

(** X22. On a failed attempt every registered listener is called once,
    in the order of registration, with the error as
    [processResponseError] left it, whether the attempt is then
    retried, rejected, or its message extraction throws; but when the
    retry decision itself throws, no listener is called. *)
Theorem listeners_called_once_per_failure target cfg ctl o key tok err n st :
  let run := onRejected target cfg ctl o key tok err n st in
  error_events (log run.1)
  = error_events (log st)
    ++ match requestWillRetry target ctl Uninitialised err n with
       | inr _ => map (fun l => (l, processed ctl err)) (error_listeners ctl)
       | inl _ => []
       end.
Proof.
  cbn zeta. destruct (preProcessResponseErrorMessages cfg) eqn:Hflag.
  - rewrite AdapterFacts.onRejected_flag_on by done.
    destruct (requestWillRetry _ _ _ _ _) as [e|willRetry]; [by rewrite app_nil_r|].
    cbn zeta.
    match goal with
    | |- context [errorMessage ?l ?e ?s] =>
        pose proof (PipelineLaws.errorMessage_state l e s) as Hmsg;
        destruct (errorMessage l e s) as [x|[message st']]
    end.
    + simpl. by rewrite error_events_app, error_events_ErrorEvent.
    + destruct Hmsg as [_ [-> | [-> _]]]; destruct willRetry; cbn [fst snd];
        rewrite ?reject_error_events; simpl;
        by rewrite ?error_events_app, ?error_events_ErrorEvent, ?error_events_Cancel,
             ?app_nil_r.
  - rewrite AdapterFacts.onRejected_flag_off by done.
    destruct (requestWillRetry _ _ _ _ _) as [e|willRetry]; [by rewrite app_nil_r|].
    cbn zeta. destruct willRetry; cbn [fst snd]; rewrite ?reject_error_events; simpl;
      by rewrite error_events_app, error_events_ErrorEvent.
Qed.

(** ** Resource URLs *)

Lemma prefix_app_l (p h s : string) :
  String.prefix p h = true → String.prefix p (h +:+ s) = true.
Proof.
  revert h. induction p as [|a p IH]; intros h.
  - intros _. by destruct (h +:+ s).
  - destruct h as [|b h]; [done|].
    change (String b h +:+ s) with (String b (h +:+ s)). cbn [String.prefix].
    destruct (Ascii.ascii_dec a b); [apply IH|done].
Qed.

(** X23. A path that starts with [http:] or [https:] is used as it is,
    and, the host URL being such an address itself (or empty),
    [getFullResourceURL] is idempotent: a URL it produced can be given
    back to the adapter as a path. *)
Theorem full_resource_url_idempotent cfg (path : string) :
  String.prefix "http:" (HOST_URL cfg) = true
  ∨ String.prefix "https:" (HOST_URL cfg) = true
  ∨ HOST_URL cfg = EmptyString →
  getFullResourceURL cfg (getFullResourceURL cfg path) = getFullResourceURL cfg path
  ∧ (String.prefix "http:" path = true ∨ String.prefix "https:" path = true →
     getFullResourceURL cfg path = path)
  ∧ (String.prefix "http:" path = false → String.prefix "https:" path = false →
     getFullResourceURL cfg path = HOST_URL cfg +:+ path).
Proof.
  intros Hhost.
  pose (absolute := fun p => String.prefix "http:" p || String.prefix "https:" p).
  assert (Habs : ∀ p, absolute p = true → getFullResourceURL cfg p = p).
  { intros p Hp. unfold getFullResourceURL. fold (absolute p). by rewrite Hp. }
  assert (Hrel : ∀ p, absolute p = false →
                      getFullResourceURL cfg p = HOST_URL cfg +:+ p).
  { intros p Hp. unfold getFullResourceURL. fold (absolute p). by rewrite Hp. }
  split; [|split].
  - destruct (absolute path) eqn:Hp.
    + by rewrite !(Habs path Hp).
    + rewrite (Hrel path Hp). destruct Hhost as [Hh|[Hh|Hh]].
      * apply Habs. unfold absolute. by rewrite (prefix_app_l _ _ path Hh).
      * apply Habs. unfold absolute.
        by rewrite (prefix_app_l _ _ path Hh), orb_true_r.
      * rewrite Hh. change (EmptyString +:+ path) with path.
        rewrite (Hrel path Hp). by rewrite Hh.
  - intros Hp. apply Habs. unfold absolute. destruct Hp as [-> | ->];
      by rewrite ?orb_true_r.
  - intros Hp1 Hp2. apply Hrel. unfold absolute. by rewrite Hp1, Hp2.
Qed.

Lemma full_resource_url_idempotent_witness :
  let cfg := Samples.configuration true None in
  getFullResourceURL cfg (getFullResourceURL cfg "/users?page=2")
  = "https://api.example.com/users?page=2".
Proof.
  intros cfg.
  destruct (full_resource_url_idempotent cfg "/users?page=2") as [Hidem _].
  - right. by left.
  - by rewrite Hidem.
Defined.

End StoreLaws.
